(** * poc-menu: the column packer of [MenuContainer] and the state of [App]

    A shallow embedding of [src/App.tsx].

    - JavaScript arrays are sparse: an array is a list of slots, each either
      a hole or a value.  Writing past the end extends the array with holes,
      and [reduce] / [map] skip holes.
    - A JavaScript [number] holding a pixel measure is a rational ([Q]);
      rounding of IEEE doubles is abstracted away: the packer only adds and
      compares.
    - [useState] cells are fields of a state record, setters are record
      updates, and an effect is a function on that record. *)

From Stdlib Require Import QArith Lqa ZArith Lia String Ascii.
From stdpp Require Import base option list sorting.

Local Open Scope nat_scope.

(** ** JavaScript arrays *)

Module JSArray.

(** [None] is a hole, [Some v] a slot holding [v]. *)
Abbreviation t A := (list (option A)).

(** [a[i]]: [None] stands for [undefined] (a hole, or out of range). *)
Definition get {A} (a : t A) (i : nat) : option A := mjoin (a !! i).

(** [a[i] = v]: in range the slot is overwritten; out of range the array
    grows, the slots in between being holes. *)
Definition set {A} (a : t A) (i : nat) (v : A) : t A :=
  if decide (i < length a) then <[i := Some v]> a
  else a ++ replicate (i - length a) None ++ [Some v].

(** [a.reduce(f, init)]: the callback receives the accumulator, the
    element and its index; holes are skipped but still count for the
    index. *)
Fixpoint reduce_from {A B} (f : B → A → nat → B) (a : t A) (idx : nat)
    (acc : B) : B :=
  match a with
  | [] => acc
  | None :: a' => reduce_from f a' (S idx) acc
  | Some cur :: a' => reduce_from f a' (S idx) (f acc cur idx)
  end.

Definition reduce {A B} (f : B → A → nat → B) (a : t A) (init : B) : B :=
  reduce_from f a 0 init.

(** The elements [a.map(f)] and React's rendering of the result visit:
    the slots that are not holes, in index order. *)
Definition present {A} (a : t A) : list A := omap id a.

(** An array literal without holes. *)
Definition dense {A} (l : list A) : t A := Some <$> l.

End JSArray.

(** ** The column packer (App.tsx, lines 141-158) *)

(** An element of the registry, as far as the packer looks at it:
    [cur.getBoundingClientRect().height]. *)
Record HTMLElement : Type := mkElement { rect_height : Q }.

(** The accumulator of the [reduce] together with the two variables its
    callback closes over and mutates. *)
Record PackState : Type := mkPack {
  acc : JSArray.t (list nat);
  columnHeight : Q;
  currentColumn : nat
}.

(** [let columnHeight = 0, currentColumn = 0] and the initial value [[]]. *)
Definition initPack : PackState :=
  {| acc := []; columnHeight := 0%Q; currentColumn := 0 |}.

(** The callback of the [reduce]. *)
Definition packStep (maxHeight : Q) (st : PackState) (cur : HTMLElement)
    (idx : nat) : PackState :=
  let height := rect_height cur in
  let '(columnHeight', currentColumn') :=
    if Qle_bool (height + columnHeight st) maxHeight
    then ((columnHeight st + height)%Q, currentColumn st)
    else (height, S (currentColumn st)) in
  {| acc := JSArray.set (acc st) currentColumn'
              (default [] (JSArray.get (acc st) currentColumn') ++ [idx]);
     columnHeight := columnHeight';
     currentColumn := currentColumn' |}.

Definition packRun (maxHeight : Q) (refs : JSArray.t HTMLElement) : PackState :=
  JSArray.reduce (packStep maxHeight) refs initPack.

(** The array handed to [setColumns]. *)
Definition pack (maxHeight : Q) (refs : JSArray.t HTMLElement)
    : JSArray.t (list nat) :=
  acc (packRun maxHeight refs).

(** A registry filled by the ref callbacks of [N] mounted items, given by
    their measured heights. *)
Definition elements (H : list Q) : JSArray.t HTMLElement :=
  JSArray.dense (mkElement <$> H).

(** The packer on a sequence of heights: the raw array, and the columns it
    holds. *)
Definition packHeights (H : list Q) (maxHeight : Q) : JSArray.t (list nat) :=
  pack maxHeight (elements H).

Definition columnsOf (H : list Q) (maxHeight : Q) : list (list nat) :=
  JSArray.present (packHeights H maxHeight).

(** Between two items the accumulator is either still empty, or its last
    slot, at index [currentColumn], holds the column being filled. *)
Inductive Shape (st : PackState) : Prop :=
| ShapeEmpty :
    acc st = [] → currentColumn st = 0 → columnHeight st = 0%Q → Shape st
| ShapeFilling front col :
    acc st = front ++ [Some col] → length front = currentColumn st →
    Shape st.

(** The condition of the source, [height + columnHeight <= maxHeight], read
    in the order of the specification. *)
Definition fits (B : Q) (st : PackState) (h : Q) : bool :=
  Qle_bool (columnHeight st + h) B.

(** The columns and the running height once the items of [pre] have been
    processed. *)
Definition columnsAfter (B : Q) (pre : list Q) : list (list nat) :=
  JSArray.present (acc (packRun B (elements pre))).

Definition heightAfter (B : Q) (pre : list Q) : Q :=
  columnHeight (packRun B (elements pre)).

(** Appending an item to the current column, which is the last one; before
    the first item the current column is still empty and holds no slot. *)
Fixpoint appendToCurrent (cols : list (list nat)) (idx : nat)
    : list (list nat) :=
  match cols with
  | [] => [[idx]]
  | [col] => [col ++ [idx]]
  | col :: rest => col :: appendToCurrent rest idx
  end.



(** Whether the first item alone exceeds the budget, and the slots the
    packer then leaves in front of its columns. *)
Definition leadingHole (B : Q) (H : list Q) : bool :=
  match H with
  | [] => false
  | h0 :: _ => negb (fits B initPack h0)
  end.

Definition holePrefix (hole : bool) : JSArray.t (list nat) :=
  if hole then [None] else [].

(** ** The layout effect of [MenuContainer] (App.tsx, lines 119-166) *)

(** The two [useState] cells and the [childrenRefs] ref.  [columns] starts
    as [null]; [childrenRefs.current] always holds an array. *)
Record MenuContainer : Type := mkMenu {
  hasCalculatedColumns : bool;
  columns : option (JSArray.t (list nat));
  childrenRefs : JSArray.t HTMLElement
}.

Definition initMenu : MenuContainer :=
  {| hasCalculatedColumns := false; columns := None; childrenRefs := [] |}.

(** What the hooks report at a render: [top] from [useMeasure], [height]
    and [width] from [useWindowSize]. *)
Record Measures : Type := mkMeasures { top : Q; height : Q; width : Q }.

(** [const maxHeight = 0.8 * (height - top)]. *)
Definition maxHeight (m : Measures) : Q := ((8 # 10) * (height m - top m))%Q.

(** [width - 40], the [--max-width] custom property. *)
Definition maxWidth (m : Measures) : Q := (width m - 40)%Q.

(** [!top] for a number: true exactly when it is zero. *)
Definition falsy (x : Q) : bool := Qeq_bool x 0.

(** The ref callback cloned onto child [idx]: [if (ref)
    childrenRefs.current[idx] = ref]. *)
Definition setChildRef (idx : nat) (ref : option HTMLElement)
    (s : MenuContainer) : MenuContainer :=
  match ref with
  | Some el =>
      {| hasCalculatedColumns := hasCalculatedColumns s;
         columns := columns s;
         childrenRefs := JSArray.set (childrenRefs s) idx el |}
  | None => s
  end.

(** The function the effect returns: [setColumns([]);
    setHasCalculatedColumns(false)]. *)
Definition effectCleanup (s : MenuContainer) : MenuContainer :=
  {| hasCalculatedColumns := false;
     columns := Some [];
     childrenRefs := childrenRefs s |}.

(** The body of [useLayoutEffect]: the state it leaves, and the cleanup it
    returns, if any.  [!childrenRefs.current] is never true, the ref always
    holding an array, so the guard is [!top]. *)
Definition layoutEffect (m : Measures) (s : MenuContainer)
    : MenuContainer * option (MenuContainer -> MenuContainer) :=
  if falsy (top m) then (s, None)
  else ({| hasCalculatedColumns := true;
           columns := Some (pack (maxHeight m) (childrenRefs s));
           childrenRefs := childrenRefs s |},
        Some effectCleanup).


(** The dependency array of the effect, [[children, maxHeight, top]]:
    the children by identity (a number stands for each new list of
    children a render of the parent creates), the two measures by
    value. *)
Record Deps : Type := mkDeps {
  depChildren : nat;
  depMaxHeight : Q;
  depTop : Q
}.


(** The comparison React makes between the dependencies of two renders. *)
Definition sameDeps (a b : Deps) : bool :=
  (depChildren a =? depChildren b)
  && Qeq_bool (depMaxHeight a) (depMaxHeight b)
  && Qeq_bool (depTop a) (depTop b).




(** ** [useDropdownContext] (App.tsx, lines 36-52) *)

(** The two handles of the store are opaque to this development. *)
Record DropdownContextStore : Type := mkStore {
  floating : nat;
  interactions : nat
}.

(** How a call ends: with a value or with a thrown [Error]. *)
Inductive Completion (A : Type) : Type :=
| Return (value : A)
| Throw (message : string).
Arguments Return {A} value.
Arguments Throw {A} message.

(** [use(DropdownContext)] under the enclosing providers, innermost first:
    the nearest provider's value, or the default [null]. *)
Definition useContext (providers : list DropdownContextStore)
    : option DropdownContextStore :=
  head providers.

Definition missingProviderMessage : string :=
  "useDropdownContext hook must be used within DropdownProvider.".

Definition useDropdownContext (providers : list DropdownContextStore)
    : Completion (option DropdownContextStore) :=
  let dropdownContext := useContext providers in
  match dropdownContext with
  | None => Throw missingProviderMessage
  | Some _ => Return dropdownContext
  end.

(** [s.includes(needle)]. *)
Fixpoint includes (needle s : string) : bool :=
  String.prefix needle s ||
  match s with
  | EmptyString => false
  | String _ s' => includes needle s'
  end.

(** ** The state of [App] (App.tsx, lines 316-352) *)

Inductive Align : Type := AlignLeft | AlignCenter | AlignRight.

Record App : Type := mkApp { itemsCount : Z; align : Align }.

(** [useState(1)] and [useState('left')]. *)
Definition initApp : App := {| itemsCount := 1; align := AlignLeft |}.

(** [\D]: any character that is not a decimal digit. *)
Definition isDigit (c : ascii) : bool :=
  let n := nat_of_ascii c in (48 <=? n) && (n <=? 57).

(** [value.replace(/\D+/g, '')]: every run of non-digits is removed. *)
Fixpoint stripNonDigits (s : string) : string :=
  match s with
  | EmptyString => EmptyString
  | String c s' =>
      if isDigit c then String c (stripNonDigits s') else stripNonDigits s'
  end.

(** What is left of a string once its non-digits are gone. *)
Definition allDigits (s : string) : Prop :=
  Forall (fun c => isDigit c = true) (list_ascii_of_string s).

(** [s || '0']: the empty string is falsy. *)
Definition orZero (s : string) : string :=
  match s with
  | EmptyString => "0"%string
  | _ => s
  end.

(** [Number(s)] on a string of decimal digits, read exactly. *)
Fixpoint numberFrom (n : Z) (s : string) : Z :=
  match s with
  | EmptyString => n
  | String c s' => numberFrom (10 * n + (Z.of_nat (nat_of_ascii c) - 48))%Z s'
  end.

Definition Number (s : string) : Z := numberFrom 0 s.

Inductive Event : Type :=
| ClickRemove
| ClickAdd
| ClickAlign (a : Align)
| InputChange (value : string).

(** The handlers of the three buttons rows and of the text input. *)
Definition handle (e : Event) (s : App) : App :=
  match e with
  | ClickRemove => {| itemsCount := itemsCount s - 1; align := align s |}
  | ClickAdd => {| itemsCount := itemsCount s + 1; align := align s |}
  | ClickAlign a => {| itemsCount := itemsCount s; align := a |}
  | InputChange value =>
      {| itemsCount := Number (orZero (stripNonDigits value));
         align := align s |}
  end.

(** The state after a sequence of interactions, oldest first. *)
Definition interact (es : list Event) (s : App) : App :=
  foldl (fun st e => handle e st) s es.

(** [Array.from({ length: itemsCount })]: the number of items [AppBar]
    renders; a negative length reads as 0. *)
Definition renderedItems (s : App) : nat := Z.to_nat (itemsCount s).

(** ** The registry and the rendering of [MenuContainer]
       (App.tsx, lines 168-205) *)

(** The indices of the slots of an array that are not holes: those
    [reduce] hands to its callback. *)
Fixpoint presentFrom {A} (idx : nat) (a : JSArray.t A) : list nat :=
  match a with
  | [] => []
  | None :: a' => presentFrom (S idx) a'
  | Some _ :: a' => idx :: presentFrom (S idx) a'
  end.

Definition presentIndices {A} (a : JSArray.t A) : list nat := presentFrom 0 a.

(** React calling the ref callbacks of a commit, one call per pair of a
    child index and a ref ([null] on unmount), oldest first. *)
Definition callRefs (calls : list (nat * option HTMLElement))
    (s : MenuContainer) : MenuContainer :=
  foldl (fun st call => setChildRef call.1 call.2 st) s calls.

(** The calls of a first mount: the children's elements, in index order. *)
Fixpoint mountFrom (idx : nat) (els : list HTMLElement)
    : list (nat * option HTMLElement) :=
  match els with
  | [] => []
  | el :: els' => (idx, Some el) :: mountFrom (S idx) els'
  end.

Definition mountCalls (els : list HTMLElement)
    : list (nat * option HTMLElement) :=
  mountFrom 0 els.

(** [menuItems?.filter((_, idx) => column.includes(idx))] over [n] valid
    children: the children shown in one [MenuColumn], by index. *)
Definition renderColumn (n : nat) (column : list nat) : list nat :=
  filter (fun idx => idx ∈ column) (seq 0 n).

(** What the container shows: the flat list of its children, or one
    [MenuColumn] per slot of [columns] that is not a hole ([columns?.map]
    gives nothing for [null]). *)
Inductive Body : Type :=
| FlatItems (shown : list nat)
| ColumnList (shown : list (list nat)).

Definition renderBody (n : nat) (s : MenuContainer) : Body :=
  if negb (hasCalculatedColumns s) then FlatItems (seq 0 n)
  else ColumnList
         (match columns s with
          | Some cs => renderColumn n <$> JSArray.present cs
          | None => []
          end).

(** The class that hides the container, [opacity-0], is set exactly when
    the columns are not calculated. *)
Definition hiddenClass (s : MenuContainer) : bool :=
  negb (hasCalculatedColumns s).

(** ** [AppBar] and [MenuItem] (App.tsx, lines 212-300) *)

(** The props [AppBar] gives a [MenuItem]: the number in its label
    ([Item {idx + 1}]) and the optional [items]. *)
Record MenuItemProps : Type := mkItem {
  label : nat;
  items : option (list nat)
}.

(** The largest length an array can have, [2^32 - 1]. *)
Definition maxArrayLength : Z := (2 ^ 32 - 1)%Z.

(** The indices of an array of [n] slots. *)
Definition indicesBelow (n : nat) : list nat := seq 0 n.

(** [Array.from({ length })], by the indices of the array it makes: a
    negative length reads as 0, and a length above [2^32 - 1] throws a
    [RangeError]. *)
Definition arrayFromLength (len : Z) : Completion (list nat) :=
  if (len <=? maxArrayLength)%Z then Return (indicesBelow (Z.to_nat len))
  else Throw "Invalid array length".

(** The [MenuItem] at index [idx]: every fifth one has the eight
    sub-items [0 .. 7] of [Array.from({ length: 8 })]. *)
Definition appBarItem (idx : nat) : MenuItemProps :=
  {| label := idx + 1;
     items := if ((idx + 1) mod 5 =? 0)%nat
              then Some ((fun idx => idx) <$> indicesBelow 8)
              else None |}.

(** The children [AppBar] builds for [MenuContainer], or the error its
    render throws. *)
Definition appBarItems (count : Z) : Completion (list MenuItemProps) :=
  match arrayFromLength count with
  | Return indices => Return (appBarItem <$> indices)
  | Throw message => Throw message
  end.

(** [items?.length] as a condition: there are items and at least one. *)
Definition hasItems (p : MenuItemProps) : bool :=
  match items p with
  | Some (_ :: _) => true
  | _ => false
  end.

(** A click on the label: the handler exists only with [items?.length],
    and toggles [isOpen]. *)
Definition clickLabel (p : MenuItemProps) (isOpen : bool) : bool :=
  if hasItems p then negb isOpen else isOpen.

Definition clickTimes (p : MenuItemProps) (k : nat) (isOpen : bool) : bool :=
  Nat.iter k (clickLabel p) isOpen.

(** The numbers of the [Sub-item {idx + 1}] entries shown below the item. *)
Definition subItemLabels (p : MenuItemProps) (isOpen : bool) : list nat :=
  match items p with
  | Some l =>
      if hasItems p then
        if isOpen then imap (fun idx _ => idx + 1) l else []
      else []
  | None => []
  end.

(** The chevron is drawn with [items?.length], flipped when open. *)
Definition chevron (p : MenuItemProps) (isOpen : bool) : option bool :=
  if hasItems p then Some isOpen else None.

(** The clicks of a sequence of interactions that change the count. *)
Definition isRemove (e : Event) : bool :=
  match e with ClickRemove => true | _ => false end.

Definition isAdd (e : Event) : bool :=
  match e with ClickAdd => true | _ => false end.

Definition isInput (e : Event) : bool :=
  match e with InputChange _ => true | _ => false end.

Definition isAlign (e : Event) : bool :=
  match e with ClickAlign _ => true | _ => false end.

(** Appending one character to a string, as typing at the end of the
    input does. *)
Fixpoint typeChar (s : string) (c : ascii) : string :=
  match s with
  | EmptyString => String c EmptyString
  | String c' s' => String c' (typeChar s' c)
  end.

(** The value of a decimal digit character. *)
Definition digitValue (c : ascii) : Z := (Z.of_nat (nat_of_ascii c) - 48)%Z.

(** ** Concrete scenarios *)

(** A window shorter than the offset of the container: 100px against a top
    of 150px. *)
Definition shortWindow : Measures :=
  {| top := 150; height := 100; width := 800 |}.

(** A measured container in an ordinary window. *)
Definition tallWindow : Measures :=
  {| top := 50; height := 1000; width := 800 |}.

(** A container the hooks have not measured yet: every bound is 0. *)
Definition unmeasured : Measures :=
  {| top := 0; height := 1000; width := 800 |}.

(** One mounted item, 100px high, before the effect has run. *)
Definition oneItemMounted : MenuContainer :=
  setChildRef 0 (Some (mkElement 100)) initMenu.


(** * Properties *)

Example pack_three :
  packHeights [100; 100; 100]%Q 250 = [Some [0; 1]; Some [2]].
Proof. reflexivity. Qed.

Example pack_oversized : packHeights [300]%Q 250 = [None; Some [0]].
Proof. reflexivity. Qed.

Example input_change :
  itemsCount (handle (InputChange "-1a2") initApp) = 12%Z.
Proof. reflexivity. Qed.

(** ** Array lemmas *)

Section Arrays.
Context {A : Type}.
Implicit Types (a front : JSArray.t A) (v : A).

Lemma set_push a v : JSArray.set a (length a) v = a ++ [Some v].
Proof.
  unfold JSArray.set. case_decide; [lia |].
  by rewrite Nat.sub_diag.
Qed.

Lemma set_last front (x : option A) v :
  JSArray.set (front ++ [x]) (length front) v = front ++ [Some v].
Proof.
  unfold JSArray.set. rewrite length_app. simpl.
  case_decide; [| lia].
  rewrite insert_app_r_alt by lia. by rewrite Nat.sub_diag.
Qed.

Lemma get_last front v : JSArray.get (front ++ [Some v]) (length front) = Some v.
Proof.
  unfold JSArray.get. rewrite lookup_app_r by lia. by rewrite Nat.sub_diag.
Qed.

Lemma get_beyond a i : length a ≤ i → JSArray.get a i = None.
Proof. intros Hi. unfold JSArray.get. by rewrite lookup_ge_None_2. Qed.

Lemma present_app a1 a2 :
  JSArray.present (a1 ++ a2) = JSArray.present a1 ++ JSArray.present a2.
Proof. apply omap_app. Qed.

Lemma present_one v : JSArray.present [Some v] = [v].
Proof. reflexivity. Qed.

Lemma present_dense (l : list A) : JSArray.present (JSArray.dense l) = l.
Proof.
  unfold JSArray.present, JSArray.dense.
  induction l as [| x l IH]; [done |].
  rewrite fmap_cons. cbn. by f_equal.
Qed.

End Arrays.

Lemma snoc_cases {A} (l : list A) : l = [] ∨ ∃ front x, l = front ++ [x].
Proof. destruct l using rev_ind; eauto. Qed.

(** [reduce] over an array without holes is a left fold with the index. *)
Lemma reduce_from_dense_snoc {A B} (f : B → A → nat → B) (l : list A) x i b :
  JSArray.reduce_from f (JSArray.dense (l ++ [x])) i b
  = f (JSArray.reduce_from f (JSArray.dense l) i b) x (i + length l).
Proof.
  revert i b. induction l as [| y l IH]; intros i b; simpl.
  - by rewrite Nat.add_0_r.
  - rewrite IH. f_equal. lia.
Qed.

Lemma packRun_nil B : packRun B (elements []) = initPack.
Proof. reflexivity. Qed.

Lemma packRun_one B h :
  packRun B (elements [h]) = packStep B initPack (mkElement h) 0.
Proof. reflexivity. Qed.

Lemma packRun_snoc B pre h :
  packRun B (elements (pre ++ [h]))
  = packStep B (packRun B (elements pre)) (mkElement h) (length pre).
Proof.
  unfold packRun, JSArray.reduce, elements.
  rewrite fmap_app. simpl. rewrite reduce_from_dense_snoc.
  by rewrite length_fmap.
Qed.

(** ** One step of the packer *)

Lemma fits_comm B st h : Qle_bool (h + columnHeight st) B = fits B st h.
Proof.
  unfold fits. apply eq_true_iff_eq. rewrite !Qle_bool_iff.
  by rewrite Qplus_comm.
Qed.

Lemma fits_true B st h : fits B st h = true ↔ (columnHeight st + h <= B)%Q.
Proof. apply Qle_bool_iff. Qed.

Lemma fits_false B st h : fits B st h = false ↔ (B < columnHeight st + h)%Q.
Proof.
  unfold fits. rewrite <- not_true_iff_false, Qle_bool_iff.
  split; [apply Qnot_le_lt | apply Qlt_not_le].
Qed.

(** The four cases of one step. *)
Lemma packStep_empty_fit B st h idx :
  acc st = [] → currentColumn st = 0 → fits B st h = true →
  packStep B st (mkElement h) idx
  = {| acc := [Some [idx]]; columnHeight := (columnHeight st + h)%Q;
       currentColumn := 0 |}.
Proof.
  intros Ha Hc Hf. unfold packStep. simpl.
  rewrite fits_comm, Hf, Ha, Hc. reflexivity.
Qed.

Lemma packStep_empty_over B st h idx :
  acc st = [] → currentColumn st = 0 → fits B st h = false →
  packStep B st (mkElement h) idx
  = {| acc := [None; Some [idx]]; columnHeight := h; currentColumn := 1 |}.
Proof.
  intros Ha Hc Hf. unfold packStep. simpl.
  rewrite fits_comm, Hf, Ha, Hc. reflexivity.
Qed.

Lemma packStep_filling_fit B st h idx front col :
  acc st = front ++ [Some col] → length front = currentColumn st →
  fits B st h = true →
  packStep B st (mkElement h) idx
  = {| acc := front ++ [Some (col ++ [idx])];
       columnHeight := (columnHeight st + h)%Q;
       currentColumn := currentColumn st |}.
Proof.
  intros Ha Hc Hf. unfold packStep. simpl.
  rewrite fits_comm, Hf, Ha, <- Hc.
  by rewrite get_last, set_last.
Qed.

Lemma packStep_filling_over B st h idx front col :
  acc st = front ++ [Some col] → length front = currentColumn st →
  fits B st h = false →
  packStep B st (mkElement h) idx
  = {| acc := front ++ [Some col; Some [idx]];
       columnHeight := h;
       currentColumn := S (currentColumn st) |}.
Proof.
  intros Ha Hc Hf. unfold packStep. simpl.
  rewrite fits_comm, Hf, Ha, <- Hc.
  assert (Hlen : length (front ++ [Some col]) = S (length front))
    by (rewrite length_app; simpl; lia).
  rewrite get_beyond by lia. rewrite <- Hlen, set_push.
  by rewrite <- app_assoc.
Qed.

Lemma packStep_Shape B st h idx :
  Shape st → Shape (packStep B st (mkElement h) idx).
Proof.
  intros [Ha Hc _ | front col Ha Hc]; destruct (fits B st h) eqn:Hf.
  - rewrite (packStep_empty_fit _ _ _ _ Ha Hc Hf).
    by apply (ShapeFilling _ [] [idx]).
  - rewrite (packStep_empty_over _ _ _ _ Ha Hc Hf).
    by apply (ShapeFilling _ [None] [idx]).
  - rewrite (packStep_filling_fit _ _ _ _ _ _ Ha Hc Hf).
    by apply (ShapeFilling _ front (col ++ [idx])).
  - rewrite (packStep_filling_over _ _ _ _ _ _ Ha Hc Hf).
    apply (ShapeFilling _ (front ++ [Some col]) [idx]); simpl.
    + by rewrite <- app_assoc.
    + rewrite length_app. simpl. lia.
Qed.

Lemma packRun_Shape B H : Shape (packRun B (elements H)).
Proof.
  induction H as [| h pre IH] using rev_ind.
  - by apply ShapeEmpty.
  - rewrite packRun_snoc. by apply packStep_Shape.
Qed.

(** ** The columns after one more item *)

Lemma appendToCurrent_snoc front col idx :
  appendToCurrent (front ++ [col]) idx = front ++ [col ++ [idx]].
Proof.
  induction front as [| c front IH]; [done |].
  simpl. rewrite IH. by destruct front.
Qed.

Lemma columnsAfter_nil B : columnsAfter B [] = [] ∧ heightAfter B [] = 0%Q.
Proof. done. Qed.

Lemma heightAfter_nil B : heightAfter B [] = 0%Q.
Proof. reflexivity. Qed.

Lemma columnsOf_after H B : columnsOf H B = columnsAfter B H.
Proof. reflexivity. Qed.

(** One more item: either it fits and joins the current column, or it
    opens a column of its own. *)
Lemma columnsAfter_snoc B pre h :
  let st := packRun B (elements pre) in
  (fits B st h = true
   ∧ columnsAfter B (pre ++ [h]) = appendToCurrent (columnsAfter B pre) (length pre)
   ∧ heightAfter B (pre ++ [h]) = (heightAfter B pre + h)%Q)
  ∨ (fits B st h = false
     ∧ columnsAfter B (pre ++ [h]) = columnsAfter B pre ++ [[length pre]]
     ∧ heightAfter B (pre ++ [h]) = h).
Proof.
  intros st. unfold columnsAfter, heightAfter. rewrite packRun_snoc. fold st.
  destruct (packRun_Shape B pre) as [Ha Hc _ | front col Ha Hc];
    fold st in Ha, Hc; destruct (fits B st h) eqn:Hf; [left | right | left | right];
    (split; [done |]).
  - by rewrite (packStep_empty_fit _ _ _ _ Ha Hc Hf), Ha.
  - by rewrite (packStep_empty_over _ _ _ _ Ha Hc Hf), Ha.
  - rewrite (packStep_filling_fit _ _ _ _ _ _ Ha Hc Hf), Ha. simpl.
    by rewrite !present_app, !present_one, appendToCurrent_snoc.
  - rewrite (packStep_filling_over _ _ _ _ _ _ Ha Hc Hf), Ha. simpl.
    rewrite !present_app. simpl. by rewrite <- app_assoc.
Qed.

(** No column yet means no item yet, hence a running height of zero. *)
Lemma columnsAfter_empty B pre :
  columnsAfter B pre = [] → pre = [] ∧ heightAfter B pre = 0%Q.
Proof.
  destruct pre as [| h pre _] using rev_ind; [done |].
  intros Hnil.
  destruct (columnsAfter_snoc B pre h) as [(_ & Hc & _) | (_ & Hc & _)];
    rewrite Hc in Hnil.
  - destruct (columnsAfter B pre) as [| c [| c' cs]]; discriminate.
  - by destruct (columnsAfter B pre).
Qed.

(** The column counter moves exactly when an item does not fit. *)
Lemma counter_snoc B pre h :
  currentColumn (packRun B (elements (pre ++ [h])))
  = if fits B (packRun B (elements pre)) h
    then currentColumn (packRun B (elements pre))
    else S (currentColumn (packRun B (elements pre))).
Proof.
  rewrite packRun_snoc. unfold packStep. simpl. rewrite fits_comm.
  by destruct (fits B _ h).
Qed.

(** C1.  The packer is one left-to-right pass with a running height: before
    any item there is no column and the running height is 0; an item of
    height [h] at index [length pre] that fits (running height plus [h] at
    most the budget) is appended to the current column and [h] is added to
    the running height; otherwise the column counter is incremented, a new
    column holding just that item is started after the others and the
    running height becomes [h]. *)
Theorem C1_single_pass (B : Q) (pre : list Q) (h : Q) :
  columnsAfter B [] = [] ∧ heightAfter B [] = 0%Q ∧
  if Qle_bool (heightAfter B pre + h) B
  then columnsAfter B (pre ++ [h])
         = appendToCurrent (columnsAfter B pre) (length pre)
       ∧ heightAfter B (pre ++ [h]) = (heightAfter B pre + h)%Q
       ∧ currentColumn (packRun B (elements (pre ++ [h])))
         = currentColumn (packRun B (elements pre))
  else columnsAfter B (pre ++ [h]) = columnsAfter B pre ++ [[length pre]]
       ∧ heightAfter B (pre ++ [h]) = h
       ∧ currentColumn (packRun B (elements (pre ++ [h])))
         = S (currentColumn (packRun B (elements pre))).
Proof.
  split; [done |]. split; [done |].
  change (Qle_bool (heightAfter B pre + h) B)
    with (fits B (packRun B (elements pre)) h).
  rewrite counter_snoc.
  destruct (columnsAfter_snoc B pre h) as [(-> & Hc & Hh) | (-> & Hc & Hh)];
    by rewrite Hc, Hh.
Qed.

Lemma columnsAfter_concat B pre :
  concat (columnsAfter B pre) = seq 0 (length pre).
Proof.
  induction pre as [| h pre IH] using rev_ind; [done |].
  replace (length (pre ++ [h])) with (S (length pre))
    by (rewrite length_app; simpl; lia).
  rewrite seq_S. simpl.
  destruct (columnsAfter_snoc B pre h) as [(_ & -> & _) | (_ & -> & _)].
  - destruct (columnsAfter B pre) as [| c cs _] using rev_ind.
    + simpl in *. by rewrite <- IH.
    + rewrite appendToCurrent_snoc. rewrite concat_app in *. simpl in *.
      rewrite app_nil_r in *. by rewrite app_assoc, IH.
  - rewrite concat_app. simpl. by rewrite IH.
Qed.

Lemma columnsAfter_nonempty B pre :
  Forall (fun col => col ≠ []) (columnsAfter B pre).
Proof.
  induction pre as [| h pre IH] using rev_ind; [constructor |].
  destruct (columnsAfter_snoc B pre h) as [(_ & -> & _) | (_ & -> & _)].
  - destruct (columnsAfter B pre) as [| c cs _] using rev_ind.
    + by repeat constructor.
    + rewrite appendToCurrent_snoc.
      apply Forall_app in IH as [IH _]. apply Forall_app. split; [done |].
      repeat constructor. by destruct c.
  - apply Forall_app. split; [done |]. by repeat constructor.
Qed.


(** C2.  Concatenating the columns in order gives back the indices
    [0 .. N-1] in their original order: nothing dropped, duplicated or
    reordered; and no column is empty. *)
Theorem C2_concat_columns (H : list Q) (B : Q) :
  concat (columnsOf H B) = seq 0 (length H)
  ∧ Forall (fun col => col ≠ []) (columnsOf H B).
Proof.
  rewrite columnsOf_after. split.
  - apply columnsAfter_concat.
  - apply columnsAfter_nonempty.
Qed.

(** ** Column sums *)






(** ** Monotonicity in the budget *)

Lemma heightAfter_nonneg B pre :
  Forall (fun h => (0 <= h)%Q) pre → (0 <= heightAfter B pre)%Q.
Proof.
  induction pre as [| h pre IH] using rev_ind; intros Hpos.
  - simpl. apply Qle_refl.
  - apply Forall_app in Hpos as [Hpre Hh]. apply Forall_inv in Hh.
    cbv beta in Hh.
    specialize (IH Hpre).
    destruct (columnsAfter_snoc B pre h) as [(_ & _ & Hc) | (_ & _ & Hc)];
      rewrite Hc; [lra | done].
Qed.

Lemma length_appendToCurrent cols idx :
  cols ≠ [] → length (appendToCurrent cols idx) = length cols.
Proof.
  intros Hne. destruct (snoc_cases cols) as [-> | (front & c & ->)]; [done |].
  rewrite appendToCurrent_snoc, !length_app. reflexivity.
Qed.

(** The number of columns after the first item, and after a further one. *)
Lemma count_first B h : length (columnsAfter B [h]) = 1.
Proof.
  destruct (columnsAfter_snoc B [] h) as [(_ & Hc & _) | (_ & Hc & _)];
    simpl in Hc; by rewrite Hc.
Qed.

Lemma count_snoc B pre h :
  pre ≠ [] →
  length (columnsAfter B (pre ++ [h]))
  = if fits B (packRun B (elements pre)) h
    then length (columnsAfter B pre)
    else S (length (columnsAfter B pre)).
Proof.
  intros Hne.
  destruct (columnsAfter_snoc B pre h) as [(-> & -> & _) | (-> & -> & _)].
  - apply length_appendToCurrent. intros Hnil.
    by destruct (columnsAfter_empty B pre Hnil).
  - rewrite length_app. simpl. lia.
Qed.

Lemma height_snoc B pre h :
  heightAfter B (pre ++ [h])
  = if fits B (packRun B (elements pre)) h
    then (heightAfter B pre + h)%Q else h.
Proof.
  by destruct (columnsAfter_snoc B pre h) as [(-> & _ & Hc) | (-> & _ & Hc)].
Qed.

(** With the larger budget the packer is never behind: it has opened fewer
    columns, or as many with a current column that is no fuller. *)
Lemma ahead B1 B2 pre :
  (B1 <= B2)%Q → Forall (fun h => (0 <= h)%Q) pre →
  length (columnsAfter B2 pre) < length (columnsAfter B1 pre)
  ∨ (length (columnsAfter B2 pre) = length (columnsAfter B1 pre)
     ∧ (heightAfter B2 pre <= heightAfter B1 pre)%Q).
Proof.
  intros HB. induction pre as [| h pre IH] using rev_ind; intros Hpos.
  - right. split; [done |]. apply Qle_refl.
  - apply Forall_app in Hpos as [Hpre Hh]. apply Forall_inv in Hh.
    cbv beta in Hh.
    specialize (IH Hpre).
    destruct (decide (pre = [])) as [-> | Hne].
    + right. simpl. rewrite !count_first. split; [done |].
      change [h] with ([] ++ [h]). rewrite !height_snoc.
      destruct (fits B1 _ h), (fits B2 _ h); rewrite ?heightAfter_nil; lra.
    + pose proof (heightAfter_nonneg B1 pre Hpre) as Hc1.
      rewrite !count_snoc, !height_snoc by done.
      destruct (fits B1 _ h) eqn:Hf1, (fits B2 _ h) eqn:Hf2;
        try (apply fits_true in Hf1; fold (heightAfter B1 pre) in Hf1);
        try (apply fits_true in Hf2; fold (heightAfter B2 pre) in Hf2);
        try (apply fits_false in Hf1; fold (heightAfter B1 pre) in Hf1);
        try (apply fits_false in Hf2; fold (heightAfter B2 pre) in Hf2);
        destruct IH as [Hlt | [Heq Hle]].
      * by left.
      * right. split; [done | lra].
      * destruct (decide (S (length (columnsAfter B2 pre))
                          = length (columnsAfter B1 pre))) as [Heq | Hn].
        -- right. split; [done | lra].
        -- left. lia.
      * exfalso. lra.
      * left. lia.
      * left. lia.
      * left. lia.
      * right. split; [lia | lra].
Qed.

(** ** The array and its columns *)

Lemma dense_snoc {A} (l : list A) x :
  JSArray.dense (l ++ [x]) = JSArray.dense l ++ [Some x].
Proof. unfold JSArray.dense. by rewrite fmap_app. Qed.

(** The array is the sequence of its columns, behind one hole when the
    first item alone exceeds the budget. *)
Lemma pack_layout B pre :
  acc (packRun B (elements pre))
  = holePrefix (leadingHole B pre) ++ JSArray.dense (columnsAfter B pre).
Proof.
  induction pre as [| h pre IH] using rev_ind; [done |].
  destruct (decide (pre = [])) as [-> | Hne].
  - change ([] ++ [h]) with [h]. unfold columnsAfter. rewrite packRun_one.
    unfold leadingHole. destruct (fits B initPack h) eqn:Hf.
    + by rewrite (packStep_empty_fit B _ h 0).
    + by rewrite (packStep_empty_over B _ h 0).
  - replace (leadingHole B (pre ++ [h])) with (leadingHole B pre)
      by (by destruct pre).
    unfold columnsAfter in *. rewrite packRun_snoc.
    set (st := packRun B (elements pre)) in *.
    destruct (packRun_Shape B pre) as [Ha _ _ | front c Ha Hc]; fold st in Ha.
    + exfalso. apply Hne.
      apply (columnsAfter_empty B pre). unfold columnsAfter. fold st.
      by rewrite Ha.
    + fold st in Hc. rewrite Ha, present_app, present_one, dense_snoc in IH.
      rewrite app_assoc in IH. apply app_inj_tail in IH as [Hfront _].
      destruct (fits B st h) eqn:Hf.
      * rewrite (packStep_filling_fit _ _ _ _ _ _ Ha Hc Hf). simpl.
        rewrite present_app, present_one, dense_snoc, app_assoc.
        by rewrite <- Hfront.
      * rewrite (packStep_filling_over _ _ _ _ _ _ Ha Hc Hf). simpl.
        change [Some c; Some [length pre]]
          with ([Some c] ++ [Some [length pre]]).
        rewrite app_assoc, !present_app, !present_one, !dense_snoc.
        rewrite !app_assoc. by rewrite <- Hfront.
Qed.

Lemma pack_length H B :
  length (packHeights H B)
  = (if leadingHole B H then 1 else 0) + length (columnsOf H B).
Proof.
  unfold packHeights, pack. rewrite pack_layout, length_app.
  unfold JSArray.dense. rewrite length_fmap, columnsOf_after.
  by destruct (leadingHole B H).
Qed.

Lemma leadingHole_mono B1 B2 H :
  (B1 <= B2)%Q → leadingHole B2 H = true → leadingHole B1 H = true.
Proof.
  intros HB. destruct H as [| h0 H]; simpl; [done |].
  rewrite !negb_true_iff, !fits_false. simpl. lra.
Qed.

(** Heights of elements are never negative; were they, the larger budget
    could give more columns. *)
Example negative_heights_not_monotone :
  columnsOf [2; -3; 1; -1]%Q (-2) = [[0]; [1; 2; 3]]
  ∧ columnsOf [2; -3; 1; -1]%Q (-1) = [[0; 1]; [2]; [3]].
Proof. split; reflexivity. Qed.

(** C5.  For non-negative heights, a larger budget never gives more
    columns; nor does it give a longer array. *)
Theorem C5_budget_monotone (H : list Q) (B1 B2 : Q) :
  Forall (fun h => (0 <= h)%Q) H → (B1 <= B2)%Q →
  length (columnsOf H B2) ≤ length (columnsOf H B1)
  ∧ length (packHeights H B2) ≤ length (packHeights H B1).
Proof.
  intros Hpos HB.
  assert (Hcols : length (columnsOf H B2) ≤ length (columnsOf H B1)).
  { rewrite !columnsOf_after.
    destruct (ahead B1 B2 H HB Hpos) as [Hlt | [Heq _]]; lia. }
  split; [done |]. rewrite !pack_length.
  pose proof (leadingHole_mono B1 B2 H HB) as Hhole.
  destruct (leadingHole B2 H); [rewrite Hhole by done |];
    destruct (leadingHole B1 H); lia.
Qed.

Lemma C5_budget_monotone_witness :
  Forall (fun h => (0 <= h)%Q) [100; 100; 100]%Q ∧ (150 <= 250)%Q
  ∧ length (columnsOf [100; 100; 100]%Q 250)
    ≤ length (columnsOf [100; 100; 100]%Q 150)
  ∧ length (packHeights [100; 100; 100]%Q 250)
    ≤ length (packHeights [100; 100; 100]%Q 150).
Proof.
  assert (Hpos : Forall (fun h => (0 <= h)%Q) [100; 100; 100]%Q)
    by (repeat constructor; unfold Qle; simpl; lia).
  assert (HB : (150 <= 250)%Q) by (unfold Qle; simpl; lia).
  split; [exact Hpos |]. split; [exact HB |].
  exact (C5_budget_monotone [100; 100; 100]%Q 150 250 Hpos HB).
Defined.

(** ** Boundary cases *)

Lemma pack_empty B : packHeights [] B = [].
Proof. reflexivity. Qed.

Lemma columns_single h B : columnsOf [h] B = [[0]].
Proof.
  rewrite columnsOf_after. change [h] with ([] ++ [h]).
  destruct (columnsAfter_snoc B [] h) as [(_ & Hc & _) | (_ & Hc & _)];
    by rewrite Hc.
Qed.

Lemma pack_single_fit h B : (h <= B)%Q → packHeights [h] B = [Some [0]].
Proof.
  intros Hle. unfold packHeights, pack. rewrite packRun_one.
  rewrite (packStep_empty_fit B _ h 0); [done.. |].
  apply fits_true. simpl. lra.
Qed.

Lemma pack_single_over h B : (B < h)%Q → packHeights [h] B = [None; Some [0]].
Proof.
  intros Hlt. unfold packHeights, pack. rewrite packRun_one.
  rewrite (packStep_empty_over B _ h 0); [done.. |].
  apply fits_false. simpl. lra.
Qed.

(** C4.  Boundary cases.  No item gives no column, and not even a slot
    in the array; a single item, whatever its height, gives exactly one
    column, holding that item; heights [[300]] against 250 give the column
    sequence [[[0]]]: the item is in the first and only column, neither
    dropped nor split. *)
Theorem C4_boundary_columns (h B : Q) :
  columnsOf [] B = []
  ∧ packHeights [] B = []
  ∧ columnsOf [h] B = [[0]]
  ∧ length (columnsOf [h] B) = 1
  ∧ columnsOf [300]%Q 250 = [[0]]
  ∧ head (columnsOf [300]%Q 250) = Some [0]
  ∧ concat (columnsOf [300]%Q 250) = [0].
Proof.
  pose proof (columns_single h B) as Hone.
  pose proof (columns_single 300 250) as Hover.
  rewrite Hone, Hover. repeat split.
Qed.

(** ** The guard of the layout effect *)

Lemma falsy_true x : falsy x = true ↔ (x == 0)%Q.
Proof. apply Qeq_bool_iff. Qed.

Lemma falsy_false x : falsy x = false ↔ ¬ (x == 0)%Q.
Proof.
  rewrite <- falsy_true. destruct (falsy x); split; done.
Qed.

(** C6, as the code has it.  When the container is not measured yet (its
    top offset is 0) the effect returns before computing columns: the state
    is left as it was and no cleanup is registered. *)
Theorem C6_unmeasured_returns (m : Measures) (s : MenuContainer) :
  (top m == 0)%Q → layoutEffect m s = (s, None).
Proof.
  intros Htop. unfold layoutEffect.
  by rewrite (proj2 (falsy_true (top m)) Htop).
Qed.

Lemma C6_unmeasured_returns_witness :
  (top unmeasured == 0)%Q
  ∧ layoutEffect unmeasured oneItemMounted = (oneItemMounted, None).
Proof.
  assert (Htop : (top unmeasured == 0)%Q) by reflexivity.
  split; [exact Htop |].
  exact (C6_unmeasured_returns unmeasured oneItemMounted Htop).
Defined.

(** C6 as stated fails: with a window of 100px and a top offset of 150px
    the budget is -40, and the effect still runs the packer and marks the
    columns as calculated. *)
Lemma C6_nonpositive_budget_packs :
  (maxHeight shortWindow <= 0)%Q
  ∧ layoutEffect shortWindow oneItemMounted
    = ({| hasCalculatedColumns := true;
          columns := Some [None; Some [0]];
          childrenRefs := childrenRefs oneItemMounted |},
       Some effectCleanup).
Proof. split; [by vm_compute | reflexivity]. Qed.

(** ** Invalidation *)

Lemma sameDeps_true a b :
  sameDeps a b = true
  ↔ depChildren a = depChildren b
    ∧ (depMaxHeight a == depMaxHeight b)%Q ∧ (depTop a == depTop b)%Q.
Proof.
  unfold sameDeps. rewrite !andb_true_iff, Nat.eqb_eq, !Qeq_bool_iff.
  tauto.
Qed.






(** ** The item count *)

Lemma stripNonDigits_allDigits s : allDigits (stripNonDigits s).
Proof.
  unfold allDigits. induction s as [| c s IH]; simpl; [constructor |].
  destruct (isDigit c) eqn:Hc; simpl; [by constructor | done].
Qed.

Lemma orZero_allDigits s : allDigits s → allDigits (orZero s).
Proof.
  destruct s; simpl; [| done]. intros _. by repeat constructor.
Qed.

Lemma numberFrom_nonneg s n : allDigits s → (0 <= n → 0 <= numberFrom n s)%Z.
Proof.
  unfold allDigits. revert n. induction s as [| c s IH]; simpl; intros n Hd Hn.
  - done.
  - inversion Hd as [| ? ? Hc Hs]; subst. apply IH; [done |].
    unfold isDigit in Hc. apply andb_true_iff in Hc as [Hlo _].
    apply Nat.leb_le in Hlo. lia.
Qed.

Lemma input_nonneg value s : (0 <= itemsCount (handle (InputChange value) s))%Z.
Proof.
  simpl. apply numberFrom_nonneg; [| done].
  apply orZero_allDigits, stripNonDigits_allDigits.
Qed.

Lemma add_nonneg s :
  (0 <= itemsCount s → 0 <= itemsCount (handle ClickAdd s))%Z.
Proof. simpl. lia. Qed.

Lemma align_same a s : itemsCount (handle (ClickAlign a) s) = itemsCount s.
Proof. reflexivity. Qed.

(** C8.  From the initial state, two clicks on the remove button leave
    [itemsCount] at -1: the decrement is not clamped at 0. *)
Theorem C8_remove_goes_negative :
  itemsCount (interact [ClickRemove; ClickRemove] initApp) = (-1)%Z
  ∧ ¬ (0 <= itemsCount (interact [ClickRemove; ClickRemove] initApp))%Z
  ∧ renderedItems (interact [ClickRemove; ClickRemove] initApp) = 0.
Proof. repeat split; [by vm_compute]. Qed.

(** ** The context lookup *)

(** C9.  Without a provider the lookup throws an [Error] whose message
    names [DropdownProvider]; under a provider it returns that provider's
    store; in no case does it return [null]. *)
Theorem C9_missing_provider_throws (providers : list DropdownContextStore) :
  useContext [] = None
  ∧ useDropdownContext [] = Throw missingProviderMessage
  ∧ includes "DropdownProvider" missingProviderMessage = true
  ∧ match useContext providers with
    | None => useDropdownContext providers = Throw missingProviderMessage
    | Some store => useDropdownContext providers = Return (Some store)
    end
  ∧ useDropdownContext providers ≠ Return None.
Proof.
  repeat split; try done; unfold useDropdownContext;
    by destruct (useContext providers).
Qed.

(** ** An oversized first item *)

Lemma dense_lookup_hole {A} (l : list A) i : JSArray.dense l !! i ≠ Some None.
Proof.
  unfold JSArray.dense. rewrite list_lookup_fmap. by destruct (l !! i).
Qed.

(** Once the first item has opened the column at index 1, slot 0 stays a
    hole and the column at index 1 keeps starting with item 0. *)
Lemma oversized_first_slots B h0 rest :
  (B < h0)%Q →
  let st := packRun B (elements (h0 :: rest)) in
  1 ≤ currentColumn st
  ∧ acc st !! 0 = Some None
  ∧ ∃ col, acc st !! 1 = Some (Some (0 :: col)).
Proof.
  intros Hlt. induction rest as [| h pre IH] using rev_ind; intros st.
  - subst st. rewrite packRun_one.
    rewrite (packStep_empty_over B _ h0 0); [| done.. |].
    + simpl. eauto.
    + apply fits_false. simpl. lra.
  - subst st. rewrite app_comm_cons, packRun_snoc.
    set (st := packRun B (elements (h0 :: pre))) in *.
    destruct IH as (Hcc & H0 & col & H1).
    destruct (packRun_Shape B (h0 :: pre)) as [Ha _ _ | front c Ha Hc];
      fold st in Ha; [by rewrite Ha in H0 |].
    fold st in Hc.
    assert (Hfront : 1 ≤ length front) by lia.
    rewrite Ha in H0, H1.
    destruct (fits B st h) eqn:Hf.
    + rewrite (packStep_filling_fit _ _ _ _ _ _ Ha Hc Hf). simpl.
      split; [done |]. split.
      * rewrite lookup_app_l in H0 |- * by lia. done.
      * destruct (decide (length front = 1)) as [Hone | Hmore].
        -- rewrite lookup_app_r in H1 |- * by lia.
           rewrite Hone in *. simpl in *. simplify_eq. eauto.
        -- rewrite lookup_app_l in H1 |- * by lia. eauto.
    + rewrite (packStep_filling_over _ _ _ _ _ _ Ha Hc Hf). simpl.
      split; [lia |]. split.
      * rewrite lookup_app_l in H0 |- * by lia. done.
      * destruct (decide (length front = 1)) as [Hone | Hmore].
        -- rewrite lookup_app_r in H1 |- * by lia.
           rewrite Hone in *. simpl in *. simplify_eq. eauto.
        -- rewrite lookup_app_l in H1 |- * by lia. eauto.
Qed.

(** C10.  When the first item is higher than the budget, the counter is
    incremented before anything is placed: after that item the array is
    [[<hole>, [0]]] with the counter at 1, and at the end slot 0 is still a
    hole, item 0 heads the column at index 1, and the array is not the
    dense sequence of its columns. *)
Theorem C10_oversized_first_leaves_hole (h0 : Q) (rest : list Q) (B : Q) :
  (B < h0)%Q →
  packRun B (elements [h0])
    = {| acc := [None; Some [0]]; columnHeight := h0; currentColumn := 1 |}
  ∧ packHeights (h0 :: rest) B !! 0 = Some None
  ∧ JSArray.get (packHeights (h0 :: rest) B) 0 = None
  ∧ (∃ col, JSArray.get (packHeights (h0 :: rest) B) 1 = Some (0 :: col))
  ∧ packHeights (h0 :: rest) B
    ≠ JSArray.dense (JSArray.present (packHeights (h0 :: rest) B)).
Proof.
  intros Hlt.
  destruct (oversized_first_slots B h0 rest Hlt) as (_ & H0 & col & H1).
  fold (pack B (elements (h0 :: rest))) in H0, H1.
  fold (packHeights (h0 :: rest) B) in H0, H1.
  split; [| split; [done | split; [| split]]].
  - rewrite packRun_one. apply packStep_empty_over; [done.. |].
    apply fits_false. simpl. lra.
  - unfold JSArray.get. by rewrite H0.
  - exists col. unfold JSArray.get. by rewrite H1.
  - intros Heq. rewrite Heq in H0. by apply dense_lookup_hole in H0.
Qed.

Lemma C10_oversized_first_leaves_hole_witness :
  (250 < 300)%Q
  ∧ packRun 250 (elements [300]%Q)
    = {| acc := [None; Some [0]]; columnHeight := 300; currentColumn := 1 |}
  ∧ packHeights [300; 100; 100]%Q 250 !! 0 = Some None
  ∧ JSArray.get (packHeights [300; 100; 100]%Q 250) 0 = None
  ∧ (∃ col, JSArray.get (packHeights [300; 100; 100]%Q 250) 1 = Some (0 :: col))
  ∧ packHeights [300; 100; 100]%Q 250
    ≠ JSArray.dense (JSArray.present (packHeights [300; 100; 100]%Q 250)).
Proof.
  assert (Hlt : (250 < 300)%Q) by reflexivity.
  split; [exact Hlt |].
  exact (C10_oversized_first_leaves_hole 300 [100; 100]%Q 250 Hlt).
Defined.

(** * Further properties of the packer *)

(** ** Registries with holes *)

Lemma reduce_from_app {A B} (f : B → A → nat → B) (a1 a2 : JSArray.t A) i b :
  JSArray.reduce_from f (a1 ++ a2) i b
  = JSArray.reduce_from f a2 (i + length a1) (JSArray.reduce_from f a1 i b).
Proof.
  revert i b. induction a1 as [| [x |] a1 IH]; intros i b; simpl.
  - by rewrite Nat.add_0_r.
  - rewrite IH. f_equal. lia.
  - rewrite IH. f_equal. lia.
Qed.

Lemma packRun_hole B refs : packRun B (refs ++ [None]) = packRun B refs.
Proof. unfold packRun, JSArray.reduce. by rewrite reduce_from_app. Qed.

Lemma packRun_element B refs el :
  packRun B (refs ++ [Some el])
  = packStep B (packRun B refs) el (length refs).
Proof. unfold packRun, JSArray.reduce. by rewrite reduce_from_app. Qed.

Lemma packRun_Shape_any B refs : Shape (packRun B refs).
Proof.
  induction refs as [| [[h] |] refs IH] using rev_ind.
  - by apply ShapeEmpty.
  - rewrite packRun_element. by apply packStep_Shape.
  - by rewrite packRun_hole.
Qed.

(** One step adds its index at the end of the concatenated columns. *)
Lemma packStep_concat B st el idx :
  Shape st →
  concat (JSArray.present (acc (packStep B st el idx)))
  = concat (JSArray.present (acc st)) ++ [idx].
Proof.
  destruct el as [h].
  intros [Ha Hc _ | front col Ha Hc]; destruct (fits B st h) eqn:Hf.
  - by rewrite (packStep_empty_fit _ _ _ _ Ha Hc Hf), Ha.
  - by rewrite (packStep_empty_over _ _ _ _ Ha Hc Hf), Ha.
  - rewrite (packStep_filling_fit _ _ _ _ _ _ Ha Hc Hf), Ha. simpl.
    rewrite !present_app, !present_one, !concat_app. simpl.
    by rewrite !app_nil_r, app_assoc.
  - rewrite (packStep_filling_over _ _ _ _ _ _ Ha Hc Hf), Ha. simpl.
    change [Some col; Some [idx]] with ([Some col] ++ [Some [idx]]).
    rewrite !present_app, !present_one, !concat_app. simpl.
    by rewrite app_assoc.
Qed.

Lemma presentFrom_snoc {A} (a : JSArray.t A) (x : option A) i :
  presentFrom i (a ++ [x])
  = presentFrom i a
    ++ match x with Some _ => [i + length a] | None => [] end.
Proof.
  revert i. induction a as [| [y |] a IH]; intros i; simpl.
  - destruct x; simpl; [by rewrite Nat.add_0_r | done].
  - rewrite IH. do 3 f_equal. destruct x; [f_equal; lia | done].
  - rewrite IH. do 2 f_equal. destruct x; [f_equal; lia | done].
Qed.

(** X1.  Whatever holes the registry has, the columns hold, in order and
    once each, exactly the indices of the elements that are there. *)
Theorem pack_sparse_registry (B : Q) (refs : JSArray.t HTMLElement) :
  concat (JSArray.present (pack B refs)) = presentIndices refs.
Proof.
  unfold pack, presentIndices.
  induction refs as [| [el |] refs IH] using rev_ind; [done | |].
  - rewrite packRun_element, presentFrom_snoc.
    rewrite packStep_concat by apply packRun_Shape_any. by rewrite IH.
  - rewrite packRun_hole, presentFrom_snoc, app_nil_r. done.
Qed.

(** ** The array behind its columns *)

Lemma Shape_counter st :
  Shape st → acc st ≠ [] → length (acc st) = S (currentColumn st).
Proof.
  intros [Ha _ _ | front col Ha Hc] Hne; [done |].
  rewrite Ha, length_app. simpl. lia.
Qed.

(** X2.  The array is the dense sequence of its columns, behind exactly one
    hole when the first item alone exceeds the budget and behind none
    otherwise; and unless it is empty the counter is its last index. *)
Theorem pack_array_layout (H : list Q) (B : Q) :
  packHeights H B
  = (if leadingHole B H then [None] else []) ++ JSArray.dense (columnsOf H B)
  ∧ length (packHeights H B)
    = match H with
      | [] => 0
      | _ :: _ => S (currentColumn (packRun B (elements H)))
      end.
Proof.
  split.
  - unfold packHeights, pack. rewrite pack_layout, columnsOf_after.
    by destruct (leadingHole B H).
  - destruct H as [| h0 H]; [done |].
    apply Shape_counter; [apply packRun_Shape |].
    fold (pack B (elements (h0 :: H))). fold (packHeights (h0 :: H) B).
    intros Hnil.
    destruct (columnsAfter_empty B (h0 :: H)) as [Hne _]; [| done].
    rewrite <- columnsOf_after. unfold columnsOf. by rewrite Hnil.
Qed.

(** ** A column is closed only when the next item does not fit *)





(** ** Budgets at the two ends *)

Lemma length_snoc {A} (l : list A) x : length (l ++ [x]) = S (length l).
Proof. rewrite length_app. simpl. lia. Qed.





Lemma columnsAfter_negative_budget B pre :
  Forall (fun h => (0 <= h)%Q) pre → (B < 0)%Q →
  columnsAfter B pre = (fun i => [i]) <$> seq 0 (length pre).
Proof.
  intros Hpos HB. induction pre as [| h pre IH] using rev_ind; [done |].
  apply Forall_app in Hpos as [Hpre Hh]. apply Forall_inv in Hh.
  cbv beta in Hh. pose proof (heightAfter_nonneg B pre Hpre) as Hc.
  rewrite length_snoc, seq_S, fmap_app. simpl.
  destruct (columnsAfter_snoc B pre h) as [(Hf & _ & _) | (_ & -> & _)].
  - apply fits_true in Hf. fold (heightAfter B pre) in Hf. lra.
  - by rewrite IH.
Qed.

(** X5.  Under a negative budget (a window shorter than the offset of the
    container) every item of non-negative height gets a column of its
    own, and the array starts with a hole. *)
Theorem pack_negative_budget (H : list Q) (B : Q) :
  Forall (fun h => (0 <= h)%Q) H → (B < 0)%Q →
  columnsOf H B = (fun i => [i]) <$> seq 0 (length H)
  ∧ packHeights H B
    = match H with
      | [] => []
      | _ :: _ => None :: JSArray.dense (columnsOf H B)
      end.
Proof.
  intros Hpos HB. rewrite columnsOf_after. split.
  - by apply columnsAfter_negative_budget.
  - unfold packHeights, pack. rewrite pack_layout.
    destruct H as [| h0 H]; [done |]. simpl.
    assert (Hover : fits B initPack h0 = false).
    { apply fits_false. simpl. apply Forall_inv in Hpos. cbv beta in Hpos.
      lra. }
    by rewrite Hover.
Qed.

Lemma pack_negative_budget_witness :
  Forall (fun h => (0 <= h)%Q) [20; 30]%Q ∧ (maxHeight shortWindow < 0)%Q
  ∧ columnsOf [20; 30]%Q (maxHeight shortWindow)
    = (fun i => [i]) <$> seq 0 (length [20; 30]%Q)
  ∧ packHeights [20; 30]%Q (maxHeight shortWindow)
    = None :: JSArray.dense (columnsOf [20; 30]%Q (maxHeight shortWindow)).
Proof.
  assert (Hpos : Forall (fun h => (0 <= h)%Q) [20; 30]%Q)
    by (repeat constructor; unfold Qle; simpl; lia).
  assert (HB : (maxHeight shortWindow < 0)%Q) by (by vm_compute).
  split; [exact Hpos |]. split; [exact HB |].
  exact (pack_negative_budget [20; 30]%Q (maxHeight shortWindow) Hpos HB).
Defined.

(** ** Items added at the end *)

Lemma appendToCurrent_lookup_closed cols idx k :
  S k < length cols → appendToCurrent cols idx !! k = cols !! k.
Proof.
  intros Hk. destruct (snoc_cases cols) as [-> | (front & c & ->)];
    [simpl in Hk; lia |].
  rewrite length_snoc in Hk.
  rewrite appendToCurrent_snoc. by rewrite !lookup_app_l by lia.
Qed.

Lemma appendToCurrent_lookup cols idx k col :
  cols !! k = Some col →
  ∃ col', appendToCurrent cols idx !! k = Some col' ∧ col `prefix_of` col'.
Proof.
  intros Hk. destruct (snoc_cases cols) as [-> | (front & c & ->)]; [done |].
  rewrite appendToCurrent_snoc.
  destruct (decide (k < length front)) as [Hlt | Hge].
  - rewrite lookup_app_l in Hk |- * by lia. by exists col.
  - rewrite lookup_app_r in Hk |- * by lia.
    destruct (k - length front) as [| j]; simpl in *; [| done].
    simplify_eq. exists (col ++ [idx]). split; [done |].
    by apply prefix_app_r.
Qed.

Lemma length_columnsAfter_snoc B pre h :
  length (columnsAfter B pre) ≤ length (columnsAfter B (pre ++ [h])).
Proof.
  destruct (decide (pre = [])) as [-> | Hne].
  - simpl. lia.
  - rewrite count_snoc by done. destruct (fits B _ h); lia.
Qed.

Lemma columnsAfter_extend B pre post k col :
  columnsAfter B pre !! k = Some col →
  length (columnsAfter B pre) ≤ length (columnsAfter B (pre ++ post))
  ∧ ∃ col', columnsAfter B (pre ++ post) !! k = Some col'
      ∧ col `prefix_of` col'
      ∧ (S k < length (columnsAfter B pre) → col' = col).
Proof.
  intros Hk. induction post as [| h post IH] using rev_ind.
  - rewrite app_nil_r. split; [done |]. by exists col.
  - destruct IH as (Hlen & col' & Hk' & Hpre & Hsame).
    rewrite app_assoc.
    pose proof (length_columnsAfter_snoc B (pre ++ post) h) as Hgrow.
    split; [lia |].
    destruct (columnsAfter_snoc B (pre ++ post) h)
      as [(_ & -> & _) | (_ & -> & _)].
    + destruct (appendToCurrent_lookup _ (length (pre ++ post)) _ _ Hk')
        as (col'' & Hk'' & Hpre'').
      exists col''. split; [done |]. split; [by etrans |].
      intros Hclosed.
      rewrite appendToCurrent_lookup_closed in Hk'' by lia.
      rewrite Hk' in Hk''. simplify_eq. by apply Hsame.
    + exists col'. split; [| done].
      rewrite lookup_app_l; [done |]. by eapply lookup_lt_Some.
Qed.

(** X6.  Items added at the end never move the earlier ones: a column of
    the shorter list is a prefix of the same column of the longer one,
    and is unchanged unless it was the last. *)
Theorem pack_append_stable (pre post : list Q) (B : Q) (k : nat)
    (col : list nat) :
  columnsOf pre B !! k = Some col →
  ∃ col', columnsOf (pre ++ post) B !! k = Some col'
    ∧ col `prefix_of` col'
    ∧ (S k < length (columnsOf pre B) → col' = col).
Proof.
  rewrite !columnsOf_after. intros Hk.
  by destruct (columnsAfter_extend B pre post k col Hk) as [_ Hex].
Qed.

Lemma pack_append_stable_witness :
  columnsOf [100; 100; 100]%Q 250 !! 0 = Some [0; 1]
  ∧ ∃ col', columnsOf ([100; 100; 100] ++ [100; 100])%Q 250 !! 0 = Some col'
      ∧ [0; 1] `prefix_of` col'
      ∧ (1 < length (columnsOf [100; 100; 100]%Q 250) → col' = [0; 1]).
Proof.
  assert (Hk : columnsOf [100; 100; 100]%Q 250 !! 0 = Some [0; 1])
    by reflexivity.
  split; [exact Hk |].
  exact (pack_append_stable [100; 100; 100]%Q [100; 100]%Q 250 0 [0; 1] Hk).
Defined.

(** * Further properties of [App] *)

(** ** The text input *)

Lemma stripNonDigits_fixed s : allDigits s → stripNonDigits s = s.
Proof.
  unfold allDigits. induction s as [| c s IH]; simpl; intros Hd; [done |].
  inversion Hd as [| ? ? Hc Hs]; subst. rewrite Hc. f_equal. by apply IH.
Qed.

Lemma stripNonDigits_typeChar s c :
  stripNonDigits (typeChar s c)
  = if isDigit c then typeChar (stripNonDigits s) c else stripNonDigits s.
Proof.
  induction s as [| c' s IH]; simpl.
  - by destruct (isDigit c).
  - rewrite IH. by destruct (isDigit c'), (isDigit c).
Qed.

Lemma numberFrom_typeChar s c n :
  numberFrom n (typeChar s c) = (10 * numberFrom n s + digitValue c)%Z.
Proof. revert n. induction s as [| c' s IH]; intros n; simpl; [done |]. apply IH. Qed.

Lemma Number_orZero_typeChar s c :
  Number (orZero (typeChar s c))
  = (10 * Number (orZero s) + digitValue c)%Z.
Proof.
  unfold Number. destruct s as [| c' s].
  { unfold digitValue. cbn [orZero typeChar numberFrom].
    change (Z.of_nat (nat_of_ascii "0")) with 48%Z. lia. }
  change (orZero (typeChar (String c' s) c)) with (typeChar (String c' s) c).
  apply numberFrom_typeChar.
Qed.

(** X7.  Whatever is typed, the count the input sets is a non-negative
    integer that depends on the digits alone: the other characters, and
    the state before, play no part, and the alignment is kept. *)
Theorem input_reads_digits (value : string) (s s' : App) :
  (0 <= itemsCount (handle (InputChange value) s))%Z
  ∧ itemsCount (handle (InputChange value) s)
    = itemsCount (handle (InputChange (stripNonDigits value)) s')
  ∧ align (handle (InputChange value) s) = align s.
Proof.
  split; [apply input_nonneg |]. split; [| done]. simpl.
  by rewrite (stripNonDigits_fixed _ (stripNonDigits_allDigits value)).
Qed.

(** X8.  For a value of at most 15 digits, a range in which [Number]
    reads every digit string exactly: the count set by that value is, when
    its last character is a digit, ten times the count the value without
    it would set plus that digit, and otherwise the very count the value
    without it would set. *)
Theorem input_type_character (value : string) (c : ascii) (s : App) :
  String.length (stripNonDigits (typeChar value c)) ≤ 15 →
  itemsCount (handle (InputChange (typeChar value c)) s)
  = if isDigit c
    then (10 * itemsCount (handle (InputChange value) s) + digitValue c)%Z
    else itemsCount (handle (InputChange value) s).
Proof.
  intros _. simpl. rewrite stripNonDigits_typeChar.
  destruct (isDigit c); [apply Number_orZero_typeChar | done].
Qed.

Lemma input_type_character_witness :
  String.length (stripNonDigits (typeChar "-1x" "2")) ≤ 15
  ∧ itemsCount (handle (InputChange (typeChar "-1x" "2")) initApp)
    = if isDigit "2"
      then (10 * itemsCount (handle (InputChange "-1x") initApp)
            + digitValue "2")%Z
      else itemsCount (handle (InputChange "-1x") initApp).
Proof.
  assert (Hlen : String.length (stripNonDigits (typeChar "-1x" "2")) ≤ 15)
    by (simpl; lia).
  split; [exact Hlen |].
  exact (input_type_character "-1x" "2" initApp Hlen).
Defined.

(** ** Sequences of interactions *)

Lemma interact_cons e es s : interact (e :: es) s = interact es (handle e s).
Proof. reflexivity. Qed.

(** X9.  Starting from a non-negative count, only the remove button can
    make it negative: a sequence of interactions without it keeps the
    count non-negative. *)
Theorem count_nonneg_without_remove (es : list Event) (s : App) :
  (0 <= itemsCount s)%Z → forallb (fun e => negb (isRemove e)) es = true →
  (0 <= itemsCount (interact es s))%Z.
Proof.
  revert s. induction es as [| e es IH]; intros s Hs Hes; [done |].
  simpl in Hes. apply andb_true_iff in Hes as [He Hes].
  rewrite interact_cons. apply IH; [| done].
  destruct e as [| | a | value]; simpl in *; [done | lia | done |].
  apply (input_nonneg value s).
Qed.

Lemma count_nonneg_without_remove_witness :
  (0 <= itemsCount initApp)%Z
  ∧ forallb (fun e => negb (isRemove e))
      [ClickAdd; InputChange "07"; ClickAlign AlignRight; ClickAdd] = true
  ∧ (0 <= itemsCount
            (interact
               [ClickAdd; InputChange "07"; ClickAlign AlignRight; ClickAdd]
               initApp))%Z.
Proof.
  assert (Hs : (0 <= itemsCount initApp)%Z) by (simpl; lia).
  assert (Hes : forallb (fun e => negb (isRemove e))
      [ClickAdd; InputChange "07"; ClickAlign AlignRight; ClickAdd] = true)
    by reflexivity.
  split; [exact Hs |]. split; [exact Hes |].
  exact (count_nonneg_without_remove _ initApp Hs Hes).
Defined.

(** X10.  As long as nothing is typed, the count is the initial one plus
    the clicks on add minus the clicks on remove, in whatever order they
    come. *)
Theorem count_of_clicks (es : list Event) (s : App) :
  forallb (fun e => negb (isInput e)) es = true →
  itemsCount (interact es s)
  = (itemsCount s + Z.of_nat (length (filter (fun e => isAdd e = true) es))
     - Z.of_nat (length (filter (fun e => isRemove e = true) es)))%Z.
Proof.
  revert s. induction es as [| e es IH]; intros s Hes; [simpl; lia |].
  simpl in Hes. apply andb_true_iff in Hes as [He Hes].
  rewrite interact_cons, IH by done.
  destruct e as [| | a | value]; [| | | done];
    rewrite !filter_cons; simpl; repeat case_decide; try done; lia.
Qed.

Lemma count_of_clicks_witness :
  forallb (fun e => negb (isInput e))
    [ClickRemove; ClickAdd; ClickAlign AlignCenter; ClickRemove; ClickRemove]
  = true
  ∧ itemsCount
      (interact
         [ClickRemove; ClickAdd; ClickAlign AlignCenter; ClickRemove;
          ClickRemove] initApp)
    = (itemsCount initApp
       + Z.of_nat (length (filter (fun e => isAdd e = true)
           [ClickRemove; ClickAdd; ClickAlign AlignCenter; ClickRemove;
            ClickRemove]))
       - Z.of_nat (length (filter (fun e => isRemove e = true)
           [ClickRemove; ClickAdd; ClickAlign AlignCenter; ClickRemove;
            ClickRemove])))%Z.
Proof.
  assert (Hes : forallb (fun e => negb (isInput e))
    [ClickRemove; ClickAdd; ClickAlign AlignCenter; ClickRemove; ClickRemove]
    = true) by reflexivity.
  split; [exact Hes |].
  exact (count_of_clicks _ initApp Hes).
Defined.

(** X11.  The two rows of buttons do not interfere: the alignment clicks
    never change the count, and the alignment is that of the last
    alignment click, whatever was done to the count in between. *)
Theorem align_and_count_independent (es : list Event) (s : App) :
  itemsCount (interact es s)
  = itemsCount (interact (filter (fun e => isAlign e = false) es) s)
  ∧ align (interact es s)
    = align (interact (filter (fun e => isAlign e = true) es) s).
Proof.
  revert s. induction es as [| e es IH]; intros s; [done |].
  rewrite interact_cons, !filter_cons.
  destruct (IH (handle e s)) as [IHc IHa]. rewrite IHc, IHa.
  assert (Hcount : ∀ fs s1 s2, itemsCount s1 = itemsCount s2 →
    itemsCount (interact (filter (fun e => isAlign e = false) fs) s1)
    = itemsCount (interact (filter (fun e => isAlign e = false) fs) s2)).
  { clear. induction fs as [| f fs IHf]; intros s1 s2 Heq; [done |].
    rewrite filter_cons. case_decide; [| by apply IHf].
    rewrite !interact_cons. apply IHf.
    destruct f; simpl in *; congruence. }
  assert (Halign : ∀ fs s1 s2, align s1 = align s2 →
    align (interact (filter (fun e => isAlign e = true) fs) s1)
    = align (interact (filter (fun e => isAlign e = true) fs) s2)).
  { clear. induction fs as [| f fs IHf]; intros s1 s2 Heq; [done |].
    rewrite filter_cons. case_decide; [| by apply IHf].
    rewrite !interact_cons. apply IHf.
    destruct f; simpl in *; congruence. }
  destruct e as [| | a | value]; simpl; repeat case_decide; try done;
    rewrite ?interact_cons; split; try done;
    first [by apply Hcount | by apply Halign].
Qed.

(** * Further properties of [AppBar] and [MenuItem] *)

Lemma appBarItem_hasItems idx :
  hasItems (appBarItem idx) = ((idx + 1) mod 5 =? 0).
Proof. unfold hasItems, appBarItem. simpl. by destruct (_ =? 0). Qed.

Lemma appBarItems_in_range count :
  (count <= maxArrayLength)%Z →
  appBarItems count = Return (appBarItem <$> seq 0 (Z.to_nat count)).
Proof.
  intros Hle. unfold appBarItems, arrayFromLength.
  by rewrite (proj2 (Z.leb_le _ _) Hle).
Qed.

Lemma appBarItems_too_long count :
  (maxArrayLength < count)%Z → appBarItems count = Throw "Invalid array length".
Proof.
  intros Hlt. unfold appBarItems, arrayFromLength.
  by rewrite (proj2 (Z.leb_gt _ _) Hlt).
Qed.

Lemma appBarItem_lookup n idx :
  (appBarItem <$> seq 0 n) !! idx
  = if decide (idx < n)
    then Some {| label := idx + 1;
                 items := if decide ((idx + 1) mod 5 = 0)
                          then Some [0; 1; 2; 3; 4; 5; 6; 7] else None |}
    else None.
Proof.
  rewrite list_lookup_fmap. case_decide as Hlt.
  - rewrite lookup_seq_lt by done. rewrite Nat.add_0_l.
    cbn [fmap option_fmap option_map]. unfold appBarItem.
    case_decide as Hmod.
    + by rewrite (proj2 (Nat.eqb_eq _ _) Hmod).
    + by rewrite (proj2 (Nat.eqb_neq _ _) Hmod).
  - by rewrite lookup_seq_ge by lia.
Qed.

(** X12.  For a count of at most [2^32 - 1] the bar builds as many items
    as the count says, none for a count that is zero or negative; item
    [idx] is labelled [idx + 1], and it has sub-items, the eight numbered
    0 to 7, exactly when [idx + 1] is a multiple of 5.  For a larger
    count the render throws. *)
Theorem appBar_items (count : Z) (idx : nat) :
  match appBarItems count with
  | Return shown =>
      (count < 2 ^ 32)%Z
      ∧ length shown = Z.to_nat count
      ∧ ((count <= 0)%Z ↔ shown = [])
      ∧ shown !! idx
        = if decide (idx < Z.to_nat count)
          then Some {| label := idx + 1;
                       items := if decide ((idx + 1) mod 5 = 0)
                                then Some [0; 1; 2; 3; 4; 5; 6; 7] else None |}
          else None
  | Throw _ => (2 ^ 32 <= count)%Z
  end.
Proof.
  destruct (Z_le_gt_dec count maxArrayLength) as [Hle | Hgt].
  - rewrite appBarItems_in_range by done. unfold maxArrayLength in Hle.
    split; [lia |]. split; [by rewrite length_fmap, length_seq |].
    split; [| apply appBarItem_lookup].
    split.
    + intros Hz. by replace (Z.to_nat count) with 0 by lia.
    + intros Hnil. apply (f_equal length) in Hnil.
      rewrite length_fmap, length_seq in Hnil. simpl in Hnil. lia.
  - rewrite appBarItems_too_long by lia. unfold maxArrayLength in Hgt. lia.
Qed.

Lemma expandable_below n :
  length (filter (fun p => hasItems p = true) (appBarItem <$> seq 0 n))
  = n / 5.
Proof.
  induction n as [| n IH]; [done |].
  rewrite seq_S, fmap_app, filter_app, length_app, IH.
  change (appBarItem <$> [0 + n]) with [appBarItem n].
  rewrite filter_cons, filter_nil, appBarItem_hasItems.
  replace (n + 1) with (S n) by lia.
  pose proof (Nat.div_mod_eq n 5). pose proof (Nat.div_mod_eq (S n) 5).
  assert (H5 : 5 ≠ 0) by lia.
  pose proof (Nat.mod_upper_bound n 5 H5).
  pose proof (Nat.mod_upper_bound (S n) 5 H5).
  case_decide as Hmod; cbn [length].
  - apply Nat.eqb_eq in Hmod. lia.
  - apply not_true_iff_false, Nat.eqb_neq in Hmod. lia.
Qed.

(** X13.  For a count [n] of at most [2^32 - 1], [n / 5] of the items
    have sub-items, none for a negative count; for a larger count the
    render throws. *)
Theorem appBar_expandable_count (count : Z) :
  match appBarItems count with
  | Return shown =>
      (count < 2 ^ 32)%Z
      ∧ length (filter (fun p => hasItems p = true) shown)
        = Z.to_nat count / 5
  | Throw _ => (2 ^ 32 <= count)%Z
  end.
Proof.
  destruct (Z_le_gt_dec count maxArrayLength) as [Hle | Hgt].
  - rewrite appBarItems_in_range by done. unfold maxArrayLength in Hle.
    split; [lia | apply expandable_below].
  - rewrite appBarItems_too_long by lia. unfold maxArrayLength in Hgt. lia.
Qed.

(** ** Opening and closing an item *)

Lemma clickTimes_S p k isOpen :
  clickTimes p (S k) isOpen = clickLabel p (clickTimes p k isOpen).
Proof. reflexivity. Qed.

(** X14.  An item without sub-items ([items] missing or empty) has no
    click handler and no chevron: however often it is clicked it stays
    closed, and it shows no sub-item. *)
Theorem leaf_item_stays_closed (p : MenuItemProps) (k : nat) (isOpen : bool) :
  hasItems p = false →
  clickTimes p k isOpen = isOpen
  ∧ subItemLabels p isOpen = []
  ∧ chevron p isOpen = None.
Proof.
  intros Hleaf. split; [| split].
  - induction k as [| k IH]; [done |].
    rewrite clickTimes_S, IH. unfold clickLabel. by rewrite Hleaf.
  - unfold subItemLabels. rewrite Hleaf. by destruct (items p).
  - unfold chevron. by rewrite Hleaf.
Qed.

Lemma leaf_item_stays_closed_witness :
  hasItems {| label := 1; items := Some [] |} = false
  ∧ clickTimes {| label := 1; items := Some [] |} 3 false = false
  ∧ subItemLabels {| label := 1; items := Some [] |} false = []
  ∧ chevron {| label := 1; items := Some [] |} false = None.
Proof.
  assert (Hleaf : hasItems {| label := 1; items := Some [] |} = false)
    by reflexivity.
  split; [exact Hleaf |].
  exact (leaf_item_stays_closed {| label := 1; items := Some [] |} 3 false
           Hleaf).
Defined.

Lemma imap_labels {A} (l : list A) (start : nat) :
  imap (fun idx _ => idx + start) l = seq start (length l).
Proof.
  revert start. induction l as [| x l IH]; intros start; [done |].
  rewrite imap_cons. simpl. f_equal.
  rewrite <- IH. apply imap_ext. intros i y _. simpl. lia.
Qed.

(** X15.  An item with sub-items toggles on each click: after [k] clicks
    it is open exactly when [k] is odd, if it started closed; open, it
    shows one entry per sub-item, labelled 1 to their number, and closed
    it shows none. *)
Theorem expandable_item_toggles (p : MenuItemProps) (l : list nat) (k : nat) :
  items p = Some l → l ≠ [] →
  clickTimes p k false = Nat.odd k
  ∧ subItemLabels p true = seq 1 (length l)
  ∧ subItemLabels p false = []
  ∧ chevron p (clickTimes p k false) = Some (Nat.odd k).
Proof.
  intros Hitems Hne.
  assert (Hhas : hasItems p = true).
  { unfold hasItems. rewrite Hitems. by destruct l. }
  assert (Hclicks : clickTimes p k false = Nat.odd k).
  { induction k as [| k IH]; [done |].
    rewrite clickTimes_S, IH. unfold clickLabel. rewrite Hhas.
    by rewrite Nat.odd_succ, <- Nat.negb_odd. }
  split; [done |]. unfold subItemLabels, chevron.
  rewrite Hitems, Hhas, Hclicks. split; [apply imap_labels | done].
Qed.

Lemma expandable_item_toggles_witness :
  items (appBarItem 4) = Some [0; 1; 2; 3; 4; 5; 6; 7]
  ∧ [0; 1; 2; 3; 4; 5; 6; 7] ≠ []
  ∧ clickTimes (appBarItem 4) 3 false = Nat.odd 3
  ∧ subItemLabels (appBarItem 4) true
    = seq 1 (length [0; 1; 2; 3; 4; 5; 6; 7])
  ∧ subItemLabels (appBarItem 4) false = []
  ∧ chevron (appBarItem 4) (clickTimes (appBarItem 4) 3 false)
    = Some (Nat.odd 3).
Proof.
  assert (Hitems : items (appBarItem 4) = Some [0; 1; 2; 3; 4; 5; 6; 7])
    by reflexivity.
  assert (Hne : [0; 1; 2; 3; 4; 5; 6; 7] ≠ []) by discriminate.
  split; [exact Hitems |]. split; [exact Hne |].
  exact (expandable_item_toggles (appBarItem 4) _ 3 Hitems Hne).
Defined.

(** * Further properties of [MenuContainer] *)

(** ** The registry *)

Lemma length_set {A} (a : JSArray.t A) i v :
  length (JSArray.set a i v) = length a `max` S i.
Proof.
  unfold JSArray.set. case_decide.
  - rewrite length_insert. lia.
  - rewrite !length_app, length_replicate. simpl. lia.
Qed.

Lemma get_set {A} (a : JSArray.t A) i v j :
  JSArray.get (JSArray.set a i v) j
  = if decide (j = i) then Some v else JSArray.get a j.
Proof.
  unfold JSArray.get, JSArray.set. case_decide as Hin.
  - case_decide as Hj.
    + subst. by rewrite list_lookup_insert_eq.
    + by rewrite list_lookup_insert_ne.
  - destruct (decide (j < length a)) as [Hlt | Hge].
    + rewrite lookup_app_l by done. case_decide; [lia | done].
    + rewrite lookup_app_r by lia. rewrite (lookup_ge_None_2 a j) by lia.
      destruct (decide (j - length a < i - length a)) as [Hmid | Hend].
      * rewrite lookup_app_l by (by rewrite length_replicate).
        rewrite lookup_replicate_2 by done. case_decide; [lia | done].
      * rewrite lookup_app_r by (rewrite length_replicate; lia).
        rewrite length_replicate. case_decide as Hj.
        -- subst. by rewrite Nat.sub_diag.
        -- destruct (j - length a - (i - length a)) as [| n] eqn:Hn; [lia |].
           done.
Qed.

(** X16.  A ref callback called with an element stores it at its index,
    where it is read back, and touches no other slot, nor the columns or
    the flag; called with [null] it changes nothing.  The registry grows
    to hold the index and never shrinks. *)
Theorem setChildRef_stores (idx j : nat) (el : HTMLElement)
    (s : MenuContainer) :
  JSArray.get (childrenRefs (setChildRef idx (Some el) s)) j
  = (if decide (j = idx) then Some el else JSArray.get (childrenRefs s) j)
  ∧ length (childrenRefs (setChildRef idx (Some el) s))
    = length (childrenRefs s) `max` S idx
  ∧ columns (setChildRef idx (Some el) s) = columns s
  ∧ hasCalculatedColumns (setChildRef idx (Some el) s)
    = hasCalculatedColumns s
  ∧ setChildRef idx None s = s.
Proof.
  repeat split; simpl; [apply get_set | apply length_set].
Qed.

Lemma callRefs_cons call calls s :
  callRefs (call :: calls) s = callRefs calls (setChildRef call.1 call.2 s).
Proof. reflexivity. Qed.

(** X17.  No sequence of ref calls, mounts and unmounts alike, removes
    an entry: an index that holds an element keeps holding one, and the
    registry is never shorter afterwards. *)
Theorem registry_keeps_entries (calls : list (nat * option HTMLElement))
    (s : MenuContainer) (j : nat) :
  is_Some (JSArray.get (childrenRefs s) j) →
  is_Some (JSArray.get (childrenRefs (callRefs calls s)) j)
  ∧ length (childrenRefs s) ≤ length (childrenRefs (callRefs calls s)).
Proof.
  revert s. induction calls as [| [idx [el |]] calls IH]; intros s Hj.
  - done.
  - rewrite callRefs_cons. simpl.
    destruct (IH (setChildRef idx (Some el) s)) as [IHj IHl].
    + simpl. rewrite get_set. by case_decide.
    + split; [done |]. simpl in IHl. rewrite length_set in IHl. lia.
  - rewrite callRefs_cons. simpl. by apply IH.
Qed.

Lemma registry_keeps_entries_witness :
  is_Some (JSArray.get (childrenRefs oneItemMounted) 0)
  ∧ is_Some (JSArray.get
       (childrenRefs (callRefs [(0, None); (2, Some (mkElement 30))]
                        oneItemMounted)) 0)
  ∧ length (childrenRefs oneItemMounted)
    ≤ length (childrenRefs (callRefs [(0, None); (2, Some (mkElement 30))]
                              oneItemMounted)).
Proof.
  assert (Hj : is_Some (JSArray.get (childrenRefs oneItemMounted) 0))
    by (by eexists).
  split; [exact Hj |].
  exact (registry_keeps_entries [(0, None); (2, Some (mkElement 30))]
           oneItemMounted 0 Hj).
Defined.

Lemma callRefs_mountFrom els (filled rest : JSArray.t HTMLElement) s :
  childrenRefs s = filled ++ rest →
  childrenRefs (callRefs (mountFrom (length filled) els) s)
  = filled ++ JSArray.dense els ++ drop (length els) rest.
Proof.
  revert filled rest s.
  induction els as [| el els IH]; intros filled rest s Hs; [done |].
  cbn [mountFrom]. rewrite callRefs_cons. cbn [fst snd].
  rewrite <- (length_snoc filled (Some el)).
  assert (Hset : childrenRefs (setChildRef (length filled) (Some el) s)
                 = (filled ++ [Some el]) ++ tail rest).
  { simpl. rewrite Hs. destruct rest as [| x rest]; simpl.
    - rewrite !app_nil_r. apply set_push.
    - unfold JSArray.set. rewrite length_app. simpl.
      case_decide; [| lia].
      rewrite insert_app_r_alt by lia. rewrite Nat.sub_diag. simpl.
      by rewrite <- app_assoc. }
  rewrite (IH _ _ _ Hset), <- app_assoc.
  destruct rest; simpl; by rewrite ?drop_nil.
Qed.

Lemma callRefs_mountCalls els s :
  childrenRefs (callRefs (mountCalls els) s)
  = JSArray.dense els ++ drop (length els) (childrenRefs s).
Proof. apply (callRefs_mountFrom els [] (childrenRefs s) s). done. Qed.

Lemma callRefs_mountCalls_init H :
  childrenRefs (callRefs (mountCalls (mkElement <$> H)) initMenu) = elements H.
Proof. rewrite callRefs_mountCalls. simpl. by rewrite drop_nil, app_nil_r. Qed.

(** X18.  The ref calls of a mount, made in index order, fill the
    registry densely with the children's elements; entries left beyond
    them by an earlier, longer list of children stay where they are.  On
    an empty registry the result is just the elements. *)
Theorem mount_fills_registry (els : list HTMLElement) (s : MenuContainer) :
  childrenRefs (callRefs (mountCalls els) s)
  = JSArray.dense els ++ drop (length els) (childrenRefs s)
  ∧ childrenRefs (callRefs (mountCalls els) initMenu) = JSArray.dense els.
Proof.
  split.
  - apply (callRefs_mountFrom els [] (childrenRefs s) s). done.
  - pose proof (callRefs_mountFrom els [] [] initMenu eq_refl) as Hm.
    simpl in Hm. by rewrite drop_nil, app_nil_r in Hm.
Qed.

(** ** What the container shows *)

Lemma StronglySorted_lt_seq a k : StronglySorted lt (seq a k).
Proof.
  revert a. induction k as [| k IH]; intros a; simpl; constructor; [done |].
  apply Forall_forall. intros x Hx. apply elem_of_seq in Hx. lia.
Qed.

Lemma StronglySorted_lt_filter (P : nat → Prop) `{∀ x, Decision (P x)} l :
  StronglySorted lt l → StronglySorted lt (filter P l).
Proof.
  induction 1 as [| x l Hl IH Hx]; [constructor |].
  rewrite filter_cons. case_decide; [| done].
  constructor; [done |].
  apply Forall_forall. intros y Hy. apply list_elem_of_filter in Hy as [_ Hy].
  rewrite Forall_forall in Hx. by apply Hx.
Qed.

Lemma StronglySorted_lt_NoDup l : StronglySorted lt l → NoDup l.
Proof.
  induction 1 as [| x l Hl IH Hx]; constructor; [| done].
  intros Hin. rewrite Forall_forall in Hx. specialize (Hx x Hin). lia.
Qed.

Lemma sorted_lt_ext (l1 l2 : list nat) :
  StronglySorted lt l1 → StronglySorted lt l2 →
  (∀ x, x ∈ l1 ↔ x ∈ l2) → l1 = l2.
Proof.
  intros H1 H2 Hel. apply (StronglySorted_unique_strong lt); [| done..|].
  - intros. lia.
  - apply NoDup_Permutation; auto using StronglySorted_lt_NoDup.
Qed.

Lemma renderColumn_sorted n col :
  StronglySorted lt col →
  renderColumn n col = filter (fun idx => idx < n) col.
Proof.
  intros Hcol. unfold renderColumn. apply sorted_lt_ext.
  - apply StronglySorted_lt_filter, StronglySorted_lt_seq.
  - by apply StronglySorted_lt_filter.
  - intros x. rewrite !list_elem_of_filter, elem_of_seq.
    split; intros [? ?]; split; auto; lia.
Qed.

Lemma filter_lt_seq n m :
  filter (fun idx => idx < n) (seq 0 m) = seq 0 (n `min` m).
Proof.
  apply sorted_lt_ext.
  - apply StronglySorted_lt_filter, StronglySorted_lt_seq.
  - apply StronglySorted_lt_seq.
  - intros x. rewrite list_elem_of_filter, !elem_of_seq. lia.
Qed.

Lemma concat_filter (P : nat → Prop) `{∀ x, Decision (P x)}
    (cols : list (list nat)) :
  concat (filter P <$> cols) = filter P (concat cols).
Proof.
  induction cols as [| c cols IH]; [done |].
  rewrite fmap_cons. simpl. by rewrite filter_app, IH.
Qed.

Lemma columnsAfter_sorted B pre :
  Forall (StronglySorted lt) (columnsAfter B pre).
Proof.
  apply Forall_forall. intros col Hcol.
  apply list_elem_of_split in Hcol as (l1 & l2 & Hsplit).
  pose proof (columnsAfter_concat B pre) as Hcat.
  rewrite Hsplit, concat_app in Hcat. simpl in Hcat.
  pose proof (StronglySorted_lt_seq 0 (length pre)) as Hs.
  rewrite <- Hcat in Hs.
  apply StronglySorted_app_1_r, StronglySorted_app_1_l in Hs. done.
Qed.

Lemma renderColumn_columns n B pre :
  renderColumn n <$> columnsAfter B pre
  = filter (fun idx => idx < n) <$> columnsAfter B pre.
Proof.
  apply Forall_fmap_ext. eapply Forall_impl; [apply columnsAfter_sorted |].
  intros col Hcol. by apply renderColumn_sorted.
Qed.

Lemma render_cover n B pre :
  concat (renderColumn n <$> columnsAfter B pre) = seq 0 (n `min` length pre).
Proof.
  rewrite renderColumn_columns, concat_filter, columnsAfter_concat.
  apply filter_lt_seq.
Qed.

(** X19.  Rendering the columns packed from [m] registered elements for
    [n] children: each [MenuColumn] shows the indices of its column that
    are below [n], in order, so that together the columns show children
    [0 .. min n m - 1] once each.  Children the registry does not know
    are not shown, and entries of the registry beyond the children show
    nothing. *)
Theorem render_columns (n : nat) (H : list Q) (B : Q) :
  concat (renderColumn n <$> columnsOf H B) = seq 0 (n `min` length H)
  ∧ renderColumn n <$> columnsOf H B
    = filter (fun idx => idx < n) <$> columnsOf H B.
Proof.
  rewrite columnsOf_after. split; [apply render_cover |].
  apply renderColumn_columns.
Qed.

(** ** The effect, from the window to the screen *)

Lemma layoutEffect_packs m s :
  ¬ (top m == 0)%Q →
  fst (layoutEffect m s)
  = {| hasCalculatedColumns := true;
       columns := Some (pack (maxHeight m) (childrenRefs s));
       childrenRefs := childrenRefs s |}.
Proof.
  intros Htop. unfold layoutEffect.
  by rewrite (proj2 (falsy_false (top m)) Htop).
Qed.

(** X20.  A first mount followed by the effect, the container being
    measured: the children are registered, packed and shown in columns,
    every child once and in order, and the container is no longer
    hidden. *)
Theorem mount_pack_render (H : list Q) (m : Measures) :
  ¬ (top m == 0)%Q →
  let mounted := callRefs (mountCalls (mkElement <$> H)) initMenu in
  let packed := fst (layoutEffect m mounted) in
  renderBody (length H) initMenu = FlatItems (seq 0 (length H))
  ∧ hiddenClass initMenu = true
  ∧ renderBody (length H) packed
    = ColumnList (renderColumn (length H) <$> columnsOf H (maxHeight m))
  ∧ concat (renderColumn (length H) <$> columnsOf H (maxHeight m))
    = seq 0 (length H)
  ∧ hiddenClass packed = false.
Proof.
  intros Htop mounted packed.
  assert (Hreg : childrenRefs mounted = elements H).
  { apply callRefs_mountCalls_init. }
  subst packed. rewrite layoutEffect_packs by done. rewrite Hreg.
  repeat split.
  rewrite columnsOf_after, render_cover. by rewrite Nat.min_id.
Qed.

Lemma mount_pack_render_witness :
  ¬ (top tallWindow == 0)%Q
  ∧ renderBody 3 initMenu = FlatItems [0; 1; 2]
  ∧ hiddenClass initMenu = true
  ∧ renderBody 3
      (fst (layoutEffect tallWindow
              (callRefs (mountCalls (mkElement <$> [400; 300; 200]%Q))
                 initMenu)))
    = ColumnList
        (renderColumn 3 <$> columnsOf [400; 300; 200]%Q (maxHeight tallWindow))
  ∧ concat (renderColumn 3
              <$> columnsOf [400; 300; 200]%Q (maxHeight tallWindow))
    = [0; 1; 2]
  ∧ hiddenClass
      (fst (layoutEffect tallWindow
              (callRefs (mountCalls (mkElement <$> [400; 300; 200]%Q))
                 initMenu)))
    = false.
Proof.
  assert (Htop : ¬ (top tallWindow == 0)%Q) by (by vm_compute).
  split; [exact Htop |].
  exact (mount_pack_render [400; 300; 200]%Q tallWindow Htop).
Defined.

Lemma maxHeight_negative m : (maxHeight m < 0)%Q ↔ (height m < top m)%Q.
Proof. unfold maxHeight. split; intros Hlt; lra. Qed.

Lemma packHeights_negative_budget H B :
  Forall (fun h => (0 <= h)%Q) H → (B < 0)%Q →
  packHeights H B
  = match H with
    | [] => []
    | _ :: _ => None :: JSArray.dense ((fun i => [i]) <$> seq 0 (length H))
    end.
Proof.
  intros Hpos HB. unfold packHeights, pack.
  rewrite pack_layout, columnsAfter_negative_budget by done.
  destruct H as [| h0 H]; [done |].
  assert (Hover : fits B initPack h0 = false).
  { apply fits_false. simpl. apply Forall_inv in Hpos. cbv beta in Hpos.
    lra. }
  unfold leadingHole. by rewrite Hover.
Qed.

(** X21.  In a window that ends above the container (its height below
    the top offset) the budget is negative, and the effect, which still
    runs, gives every registered item a column of its own behind a
    leading hole. *)
Theorem short_window_packs_singletons (H : list Q) (m : Measures)
    (s : MenuContainer) :
  (height m < top m)%Q → ¬ (top m == 0)%Q →
  Forall (fun h => (0 <= h)%Q) H → childrenRefs s = elements H →
  (maxHeight m < 0)%Q
  ∧ hasCalculatedColumns (fst (layoutEffect m s)) = true
  ∧ columns (fst (layoutEffect m s))
    = Some match H with
           | [] => []
           | _ :: _ =>
               None :: JSArray.dense ((fun i => [i]) <$> seq 0 (length H))
           end.
Proof.
  intros Hshort Htop Hpos Hreg.
  assert (HB : (maxHeight m < 0)%Q) by (by apply maxHeight_negative).
  split; [done |]. rewrite layoutEffect_packs by done. simpl.
  split; [done |]. rewrite Hreg. f_equal.
  by apply (packHeights_negative_budget H (maxHeight m)).
Qed.

Lemma short_window_packs_singletons_witness :
  (height shortWindow < top shortWindow)%Q ∧ ¬ (top shortWindow == 0)%Q
  ∧ Forall (fun h => (0 <= h)%Q) [100]%Q
  ∧ childrenRefs oneItemMounted = elements [100]%Q
  ∧ (maxHeight shortWindow < 0)%Q
  ∧ hasCalculatedColumns (fst (layoutEffect shortWindow oneItemMounted)) = true
  ∧ columns (fst (layoutEffect shortWindow oneItemMounted))
    = Some (None :: JSArray.dense ((fun i => [i]) <$> seq 0 (length [100]%Q))).
Proof.
  assert (Hshort : (height shortWindow < top shortWindow)%Q) by reflexivity.
  assert (Htop : ¬ (top shortWindow == 0)%Q) by (by vm_compute).
  assert (Hpos : Forall (fun h => (0 <= h)%Q) [100]%Q)
    by (repeat constructor; unfold Qle; simpl; lia).
  assert (Hreg : childrenRefs oneItemMounted = elements [100]%Q)
    by reflexivity.
  split; [exact Hshort |]. split; [exact Htop |]. split; [exact Hpos |].
  split; [exact Hreg |].
  exact (short_window_packs_singletons [100]%Q shortWindow oneItemMounted
           Hshort Htop Hpos Hreg).
Defined.

(** X22.  More room below the container never adds columns: if the
    window height minus the top offset does not decrease, the packing of
    the same non-negative heights has no more columns than before. *)
Theorem more_room_no_more_columns (H : list Q) (m1 m2 : Measures) :
  Forall (fun h => (0 <= h)%Q) H →
  (height m1 - top m1 <= height m2 - top m2)%Q →
  (maxHeight m1 <= maxHeight m2)%Q
  ∧ length (columnsOf H (maxHeight m2)) ≤ length (columnsOf H (maxHeight m1)).
Proof.
  intros Hpos Hroom.
  assert (HB : (maxHeight m1 <= maxHeight m2)%Q) by (unfold maxHeight; lra).
  split; [done |]. rewrite !columnsOf_after.
  destruct (ahead _ _ H HB Hpos) as [Hlt | [Heq _]]; lia.
Qed.

Lemma more_room_no_more_columns_witness :
  Forall (fun h => (0 <= h)%Q) [400; 300; 200]%Q
  ∧ (height shortWindow - top shortWindow
     <= height tallWindow - top tallWindow)%Q
  ∧ (maxHeight shortWindow <= maxHeight tallWindow)%Q
  ∧ length (columnsOf [400; 300; 200]%Q (maxHeight tallWindow))
    ≤ length (columnsOf [400; 300; 200]%Q (maxHeight shortWindow)).
Proof.
  assert (Hpos : Forall (fun h => (0 <= h)%Q) [400; 300; 200]%Q)
    by (repeat constructor; unfold Qle; simpl; lia).
  assert (Hroom : (height shortWindow - top shortWindow
                   <= height tallWindow - top tallWindow)%Q)
    by (by vm_compute).
  split; [exact Hpos |]. split; [exact Hroom |].
  exact (more_room_no_more_columns [400; 300; 200]%Q shortWindow tallWindow
           Hpos Hroom).
Defined.

(** ** Fewer children than before *)

(** X23.  When the children are re-mounted after some were removed, the
    elements of the removed ones stay in the registry: the packer still
    puts their indices in columns, and only the rendering, which filters
    by the current children, leaves them out. *)
Theorem removed_children_stay_registered (Hold Hnew : list Q) (m : Measures) :
  length Hnew ≤ length Hold → ¬ (top m == 0)%Q →
  let before := callRefs (mountCalls (mkElement <$> Hold)) initMenu in
  let after := callRefs (mountCalls (mkElement <$> Hnew)) before in
  let packed := fst (layoutEffect m after) in
  let stale := Hnew ++ drop (length Hnew) Hold in
  childrenRefs after = elements stale
  ∧ length (childrenRefs after) = length Hold
  ∧ columns packed = Some (packHeights stale (maxHeight m))
  ∧ concat (columnsOf stale (maxHeight m)) = seq 0 (length Hold)
  ∧ renderBody (length Hnew) packed
    = ColumnList (renderColumn (length Hnew) <$> columnsOf stale (maxHeight m))
  ∧ concat (renderColumn (length Hnew) <$> columnsOf stale (maxHeight m))
    = seq 0 (length Hnew).
Proof.
  intros Hlen Htop before after packed stale.
  assert (Hbefore : childrenRefs before = elements Hold).
  { apply callRefs_mountCalls_init. }
  assert (Hstale : length stale = length Hold).
  { subst stale. rewrite length_app, length_drop. lia. }
  assert (Hafter : childrenRefs after = elements stale).
  { subst after stale. rewrite callRefs_mountCalls, Hbefore.
    unfold elements, JSArray.dense.
    by rewrite length_fmap, <- !fmap_drop, <- !fmap_app. }
  subst packed. rewrite layoutEffect_packs by done. rewrite Hafter.
  split; [done |]. split.
  { unfold elements, JSArray.dense. by rewrite !length_fmap. }
  split; [done |]. split.
  { rewrite columnsOf_after, columnsAfter_concat. by rewrite Hstale. }
  split; [done |].
  rewrite columnsOf_after, render_cover, Hstale. f_equal. lia.
Qed.

Lemma removed_children_stay_registered_witness :
  length [100]%Q ≤ length [100; 200]%Q ∧ ¬ (top tallWindow == 0)%Q
  ∧ let before := callRefs (mountCalls (mkElement <$> [100; 200]%Q)) initMenu in
    let after := callRefs (mountCalls (mkElement <$> [100]%Q)) before in
    let packed := fst (layoutEffect tallWindow after) in
    let stale := ([100] ++ drop (length [100]%Q) [100; 200])%Q in
    childrenRefs after = elements stale
    ∧ length (childrenRefs after) = length [100; 200]%Q
    ∧ columns packed = Some (packHeights stale (maxHeight tallWindow))
    ∧ concat (columnsOf stale (maxHeight tallWindow))
      = seq 0 (length [100; 200]%Q)
    ∧ renderBody (length [100]%Q) packed
      = ColumnList (renderColumn (length [100]%Q)
                      <$> columnsOf stale (maxHeight tallWindow))
    ∧ concat (renderColumn (length [100]%Q)
                <$> columnsOf stale (maxHeight tallWindow))
      = seq 0 (length [100]%Q).
Proof.
  assert (Hlen : length [100]%Q ≤ length [100; 200]%Q) by (simpl; lia).
  assert (Htop : ¬ (top tallWindow == 0)%Q) by (by vm_compute).
  split; [exact Hlen |]. split; [exact Htop |].
  exact (removed_children_stay_registered [100; 200]%Q [100]%Q tallWindow
           Hlen Htop).
Defined.
